(** * rubberduck2.0 — the recorder/transcription component (frontend/src/App.jsx)

    A shallow embedding of the [App] component: its React state, its two
    refs, the three closures it installs ([startRecording], the recorder's
    [ondataavailable] and [onstop] handlers, [stopRecording]) and the part of
    the browser they talk to (MediaRecorder objects, Blob, object URLs,
    FormData, fetch).  Asynchronous functions are cut at their [await]s: each
    segment is a computation in a small state-and-exception monad, and the
    browser resumes a segment by delivering an event.

    Objects with identity (arrays, recorders, streams, object URLs) live in a
    heap and are named by handles, so that [audioChunksRef.current = []]
    creates an array no earlier closure has seen.  The state setters act at
    once: no closure of the component reads state captured at an earlier
    render. *)

From Stdlib Require Import Floats.SpecFloat.
From stdpp Require Import gmap strings list fin_maps.

Open Scope string_scope.
Open Scope list_scope.

#[local] Set Warnings "-register-all".

(** ** JavaScript values *)

(** The values [res.json()] can deliver, plus [undefined], which a property
    read can produce.  Numbers are IEEE-754 doubles. *)
Inductive JsValue : Type :=
| JUndefined
| JNull
| JBool (b : bool)
| JNumber (x : spec_float)
| JString (s : string)
| JArray (items : list JsValue)
| JObject (fields : list (string * JsValue)).

(** An [Error] object, as far as the component looks at it. *)
Record JsError := mkError { err_name : string; message : string }.

(** ToBoolean. *)
Definition to_boolean (v : JsValue) : bool :=
  match v with
  | JUndefined | JNull => false
  | JBool b => b
  | JNumber (S754_zero _) | JNumber S754_nan => false
  | JNumber _ => true
  | JString s => negb (String.eqb s "")
  | JArray _ | JObject _ => true
  end.

(** [a || b] *)
Definition js_or (a b : JsValue) : JsValue :=
  if to_boolean a then a else b.

(** Own property of a parsed object.  [JSON.parse] keeps the last member of
    a repeated name, so later entries shadow earlier ones. *)
Fixpoint own_property (key : string) (fields : list (string * JsValue))
  : option JsValue :=
  match fields with
  | [] => None
  | (k, v) :: rest =>
      match own_property key rest with
      | Some w => Some w
      | None => if String.eqb k key then Some v else None
      end
  end.

(** The [transcription] field of a response, when it has one.  Only objects
    carry own string-named members; arrays have indices and [length], and
    no prototype defines [transcription]. *)
Definition transcription_field (data : JsValue) : option JsValue :=
  match data with
  | JObject fields => own_property "transcription" fields
  | _ => None
  end.

(** ** What React DOM does with a textarea's value

    A controlled textarea gets the content ['' + value].  For a value that
    came out of [JSON.parse] this conversion throws exactly when it meets an
    object with an own member [toString]: no parsed value is callable, so
    neither that member nor an own [valueOf] can be called, and
    [Object.prototype.valueOf] returns the object itself.  An object without
    such a member becomes ["[object Object]"]; an array joins the
    conversions of its items, [null] counting as the empty string. *)
Fixpoint string_conversion_throws (v : JsValue) : bool :=
  match v with
  | JObject fields =>
      match own_property "toString" fields with
      | Some _ => true
      | None => false
      end
  | JArray items => existsb string_conversion_throws items
  | _ => false
  end.

Definition coercion_error (v : JsValue) : option JsError :=
  if string_conversion_throws v
  then Some (mkError "TypeError" "Cannot convert object to primitive value")
  else None.

(** ** Browser objects *)

Record Blob := mkBlob { blob_bytes : list Byte.byte; blob_type : string }.

(** [new Blob(parts, { type })] with Blob parts: the parts' bytes, in order. *)
Definition new_Blob (parts : list Blob) (type : string) : Blob :=
  mkBlob (concat (blob_bytes <$> parts)) type.

Inductive TrackState := Live | Ended.

Record MediaStream := mkStream { stream_active : bool; stream_tracks : list TrackState }.

Inductive RecordingState := Inactive | Recording | Paused.

(** The two closures [startRecording] installs on a recorder. *)
Inductive DataHandler := PushChunk.
Inductive StopHandler := FinalizeAndUpload.

Record MediaRecorder := mkRecorder {
  mr_stream : nat;
  mr_state : RecordingState;
  mr_stop_queued : bool;
  mr_ondataavailable : option DataHandler;
  mr_onstop : option StopHandler
}.

(** One entry of a FormData: name, value, filename. *)
Record FormEntry := mkEntry { entry_name : string; entry_blob : Blob; entry_filename : string }.

Definition FormData := list FormEntry.

Definition FormData_append (fd : FormData) (name : string) (b : Blob) (filename : string)
  : FormData :=
  fd ++ [mkEntry name b filename].

Inductive BodyInit :=
| FormDataBody (entries : FormData)
| TextBody (text : string).

(** The Content-Type fetch gives a body (the boundary parameter left out). *)
Definition body_content_type (b : BodyInit) : string :=
  match b with
  | FormDataBody _ => "multipart/form-data"
  | TextBody _ => "text/plain;charset=UTF-8"
  end.

Record Request := mkRequest { req_url : string; req_method : string; req_body : BodyInit }.

Record Response := mkResponse { res_status : nat }.

(** ** The component's state and the browser's *)

Record State := mkState {
  (* useState *)
  recording : bool;
  audioUrl : option nat;
  transcription : JsValue;
  (* useRef *)
  mediaRecorderRef : option nat;
  audioChunksRef : nat;
  (* heap *)
  arrays : gmap nat (list Blob);
  recorders : gmap nat MediaRecorder;
  streams : gmap nat MediaStream;
  blob_urls : gmap nat Blob;
  (* outside world *)
  requests : list Request;
  pending_media : nat;
  pending_fetch : nat;
  pending_json : nat;
  console : list (string * JsValue);
  uncaught : list JsError
}.

(** First render: [useState(false)], [useState(null)], [useState("")],
    [useRef(null)], [useRef([])]. *)
Definition initial_state : State :=
  mkState false None (JString "") None 0
          {[ 0 := [] ]} ∅ ∅ ∅
          [] 0 0 0 [] [].

(** Field updates. *)
Definition with_recording (b : bool) (s : State) : State :=
  mkState b (audioUrl s) (transcription s) (mediaRecorderRef s) (audioChunksRef s)
          (arrays s) (recorders s) (streams s) (blob_urls s)
          (requests s) (pending_media s) (pending_fetch s) (pending_json s)
          (console s) (uncaught s).

Definition with_audioUrl (u : option nat) (s : State) : State :=
  mkState (recording s) u (transcription s) (mediaRecorderRef s) (audioChunksRef s)
          (arrays s) (recorders s) (streams s) (blob_urls s)
          (requests s) (pending_media s) (pending_fetch s) (pending_json s)
          (console s) (uncaught s).

Definition with_transcription (t : JsValue) (s : State) : State :=
  mkState (recording s) (audioUrl s) t (mediaRecorderRef s) (audioChunksRef s)
          (arrays s) (recorders s) (streams s) (blob_urls s)
          (requests s) (pending_media s) (pending_fetch s) (pending_json s)
          (console s) (uncaught s).

Definition with_mediaRecorderRef (r : option nat) (s : State) : State :=
  mkState (recording s) (audioUrl s) (transcription s) r (audioChunksRef s)
          (arrays s) (recorders s) (streams s) (blob_urls s)
          (requests s) (pending_media s) (pending_fetch s) (pending_json s)
          (console s) (uncaught s).

Definition with_audioChunksRef (a : nat) (s : State) : State :=
  mkState (recording s) (audioUrl s) (transcription s) (mediaRecorderRef s) a
          (arrays s) (recorders s) (streams s) (blob_urls s)
          (requests s) (pending_media s) (pending_fetch s) (pending_json s)
          (console s) (uncaught s).

Definition with_arrays (m : gmap nat (list Blob)) (s : State) : State :=
  mkState (recording s) (audioUrl s) (transcription s) (mediaRecorderRef s) (audioChunksRef s)
          m (recorders s) (streams s) (blob_urls s)
          (requests s) (pending_media s) (pending_fetch s) (pending_json s)
          (console s) (uncaught s).

Definition with_recorders (m : gmap nat MediaRecorder) (s : State) : State :=
  mkState (recording s) (audioUrl s) (transcription s) (mediaRecorderRef s) (audioChunksRef s)
          (arrays s) m (streams s) (blob_urls s)
          (requests s) (pending_media s) (pending_fetch s) (pending_json s)
          (console s) (uncaught s).

Definition with_streams (m : gmap nat MediaStream) (s : State) : State :=
  mkState (recording s) (audioUrl s) (transcription s) (mediaRecorderRef s) (audioChunksRef s)
          (arrays s) (recorders s) m (blob_urls s)
          (requests s) (pending_media s) (pending_fetch s) (pending_json s)
          (console s) (uncaught s).

Definition with_blob_urls (m : gmap nat Blob) (s : State) : State :=
  mkState (recording s) (audioUrl s) (transcription s) (mediaRecorderRef s) (audioChunksRef s)
          (arrays s) (recorders s) (streams s) m
          (requests s) (pending_media s) (pending_fetch s) (pending_json s)
          (console s) (uncaught s).

Definition with_requests (l : list Request) (s : State) : State :=
  mkState (recording s) (audioUrl s) (transcription s) (mediaRecorderRef s) (audioChunksRef s)
          (arrays s) (recorders s) (streams s) (blob_urls s)
          l (pending_media s) (pending_fetch s) (pending_json s)
          (console s) (uncaught s).

Definition with_pending_media (n : nat) (s : State) : State :=
  mkState (recording s) (audioUrl s) (transcription s) (mediaRecorderRef s) (audioChunksRef s)
          (arrays s) (recorders s) (streams s) (blob_urls s)
          (requests s) n (pending_fetch s) (pending_json s)
          (console s) (uncaught s).

Definition with_pending_fetch (n : nat) (s : State) : State :=
  mkState (recording s) (audioUrl s) (transcription s) (mediaRecorderRef s) (audioChunksRef s)
          (arrays s) (recorders s) (streams s) (blob_urls s)
          (requests s) (pending_media s) n (pending_json s)
          (console s) (uncaught s).

Definition with_pending_json (n : nat) (s : State) : State :=
  mkState (recording s) (audioUrl s) (transcription s) (mediaRecorderRef s) (audioChunksRef s)
          (arrays s) (recorders s) (streams s) (blob_urls s)
          (requests s) (pending_media s) (pending_fetch s) n
          (console s) (uncaught s).

Definition with_console (l : list (string * JsValue)) (s : State) : State :=
  mkState (recording s) (audioUrl s) (transcription s) (mediaRecorderRef s) (audioChunksRef s)
          (arrays s) (recorders s) (streams s) (blob_urls s)
          (requests s) (pending_media s) (pending_fetch s) (pending_json s)
          l (uncaught s).

Definition with_uncaught (l : list JsError) (s : State) : State :=
  mkState (recording s) (audioUrl s) (transcription s) (mediaRecorderRef s) (audioChunksRef s)
          (arrays s) (recorders s) (streams s) (blob_urls s)
          (requests s) (pending_media s) (pending_fetch s) (pending_json s)
          (console s) l.

(** ** Computations: state, exceptions, and dangling handles

    A computation returns normally, throws, or is stuck ([None]) on a handle
    that names no object; well-formed states never get stuck
    ([wf_not_stuck] below). *)

Inductive Completion (A : Type) : Type :=
| Normal (a : A)
| Throw (e : JsError).
Arguments Normal {A} a.
Arguments Throw {A} e.

Definition Js (A : Type) : Type := State -> option (Completion A * State).

Definition ret {A} (a : A) : Js A := fun s => Some (Normal a, s).

Definition throw {A} (e : JsError) : Js A := fun s => Some (Throw e, s).

Definition stuck {A} : Js A := fun _ => None.

Definition bind {A B} (c : Js A) (k : A -> Js B) : Js B :=
  fun s =>
    match c s with
    | Some (Normal a, s') => k a s'
    | Some (Throw e, s') => Some (Throw e, s')
    | None => None
    end.

(** [try { body } catch (err) { handler }] *)
Definition try_catch {A} (body : Js A) (handler : JsError -> Js A) : Js A :=
  fun s =>
    match body s with
    | Some (Throw e, s') => handler e s'
    | r => r
    end.

Definition gets {A} (f : State -> A) : Js A := fun s => Some (Normal (f s), s).

Definition modify (f : State -> State) : Js unit := fun s => Some (Normal tt, f s).

Declare Scope js_scope.
Delimit Scope js_scope with js.
Notation "x ← y ; z" := (bind y (fun x => z))
  (at level 20, y at level 100, z at level 200, only parsing) : js_scope.
Notation "y ;; z" := (bind y (fun _ => z))
  (at level 100, z at level 200, only parsing, right associativity) : js_scope.
Bind Scope js_scope with Js.

(** ** Browser primitives *)

(** An array literal [[]]: a new object, distinct from every array so far. *)
Definition Array_new : Js nat :=
  fun s =>
    let a := fresh (dom (arrays s)) in
    Some (Normal a, with_arrays (<[a := []]> (arrays s)) s).

(** [a.push(x)] mutates the array object [a] in place. *)
Definition Array_push (a : nat) (x : Blob) : Js unit :=
  fun s =>
    match arrays s !! a with
    | Some items => Some (Normal tt, with_arrays (<[a := items ++ [x]]> (arrays s)) s)
    | None => None
    end.

Definition Array_items (a : nat) : Js (list Blob) :=
  fun s =>
    match arrays s !! a with
    | Some items => Some (Normal items, s)
    | None => None
    end.

(** [navigator.mediaDevices.getUserMedia({ audio: true })]: the promise is
    settled later by the browser. *)
Definition getUserMedia : Js unit :=
  modify (fun s => with_pending_media (S (pending_media s)) s).

Definition register_stream (st : MediaStream) : Js nat :=
  fun s =>
    let h := fresh (dom (streams s)) in
    Some (Normal h, with_streams (<[h := st]> (streams s)) s).

(** [new MediaRecorder(stream)]: inactive, no handlers. *)
Definition new_MediaRecorder (stream : nat) : Js nat :=
  fun s =>
    let r := fresh (dom (recorders s)) in
    Some (Normal r,
          with_recorders (<[r := mkRecorder stream Inactive false None None]> (recorders s)) s).

Definition update_recorder (r : nat) (f : MediaRecorder -> MediaRecorder) : Js unit :=
  fun s =>
    match recorders s !! r with
    | Some m => Some (Normal tt, with_recorders (<[r := f m]> (recorders s)) s)
    | None => None
    end.

Definition set_ondataavailable (r : nat) (h : DataHandler) : Js unit :=
  update_recorder r (fun m =>
    mkRecorder (mr_stream m) (mr_state m) (mr_stop_queued m) (Some h) (mr_onstop m)).

Definition set_onstop (r : nat) (h : StopHandler) : Js unit :=
  update_recorder r (fun m =>
    mkRecorder (mr_stream m) (mr_state m) (mr_stop_queued m) (mr_ondataavailable m) (Some h)).

Definition recorder_with_state (st : RecordingState) (queued : bool) (m : MediaRecorder)
  : MediaRecorder :=
  mkRecorder (mr_stream m) st queued (mr_ondataavailable m) (mr_onstop m).

(** [recorder.start()]: InvalidStateError unless inactive. *)
Definition MediaRecorder_start (r : nat) : Js unit :=
  fun s =>
    match recorders s !! r with
    | Some m =>
        match mr_state m with
        | Inactive =>
            Some (Normal tt,
                  with_recorders (<[r := recorder_with_state Recording (mr_stop_queued m) m]>
                                    (recorders s)) s)
        | _ => Some (Throw (mkError "InvalidStateError" "The MediaRecorder's state is not inactive."), s)
        end
    | None => None
    end.

(** [recorder.stop()]: nothing on an inactive recorder; otherwise the
    recorder becomes inactive and a task is queued that delivers the data
    gathered so far and then the stop event.  Only the recorder changes. *)
Definition MediaRecorder_stop (r : nat) : Js unit :=
  fun s =>
    match recorders s !! r with
    | Some m =>
        match mr_state m with
        | Inactive => Some (Normal tt, s)
        | _ =>
            Some (Normal tt,
                  with_recorders (<[r := recorder_with_state Inactive true m]> (recorders s)) s)
        end
    | None => None
    end.

(** [URL.createObjectURL(blob)]: a new URL that resolves to [blob]. *)
Definition URL_createObjectURL (b : Blob) : Js nat :=
  fun s =>
    let u := fresh (dom (blob_urls s)) in
    Some (Normal u, with_blob_urls (<[u := b]> (blob_urls s)) s).

(** [fetch(url, { method, body })]: the request goes out; the promise is
    settled later. *)
Definition fetch (url method : string) (body : BodyInit) : Js unit :=
  modify (fun s =>
    with_pending_fetch (S (pending_fetch s))
      (with_requests (requests s ++ [mkRequest url method body]) s)).

(** [res.json()]: the body is read and parsed later. *)
Definition Response_json (res : Response) : Js unit :=
  modify (fun s => with_pending_json (S (pending_json s)) s).

Definition console_log (label : string) (v : JsValue) : Js unit :=
  modify (fun s => with_console (console s ++ [(label, v)]) s).

(** [data.transcription]: reading a property of [null] or [undefined]
    throws; primitives, arrays and objects without the member give
    [undefined]. *)
Definition get_transcription (data : JsValue) : Js JsValue :=
  match data with
  | JNull =>
      throw (mkError "TypeError" "Cannot read properties of null (reading 'transcription')")
  | JUndefined =>
      throw (mkError "TypeError" "Cannot read properties of undefined (reading 'transcription')")
  | _ => ret (default JUndefined (transcription_field data))
  end.

(** ** The component (App.jsx) *)

Definition setRecording (b : bool) : Js unit := modify (with_recording b).
Definition setAudioUrl (u : nat) : Js unit := modify (with_audioUrl (Some u)).
Definition setTranscription (t : JsValue) : Js unit := modify (with_transcription t).

(** [mediaRecorder.ondataavailable] (lines 18-20) *)
Definition ondataavailable (data : Blob) : Js unit :=
  (chunks ← gets audioChunksRef;
   Array_push chunks data)%js.

(** [mediaRecorder.onstop], lines 23-25: build the blob and the playable URL. *)
Definition onstop_finalize : Js Blob :=
  (chunks ← gets audioChunksRef;
   parts ← Array_items chunks;
   let blob := new_Blob parts "audio/wav" in
   url ← URL_createObjectURL blob;
   setAudioUrl url;;
   ret blob)%js.

(** lines 27-34: the form and the request, up to [await fetch(...)]. *)
Definition onstop_upload (blob : Blob) : Js unit :=
  let formData := FormData_append [] "audio_file" blob "audio.wav" in
  fetch "http://127.0.0.1:8000/api/transcribe" "POST" (FormDataBody formData).

Definition onstop : Js unit :=
  (blob ← onstop_finalize;
   onstop_upload blob)%js.

(** line 39: the catch block. *)
Definition onstop_catch (err : JsError) : Js unit :=
  setTranscription (JString ("Error al transcribir: " +:+ message err)).

(** line 36, after the fetch promise fulfils: [await res.json()]. *)
Definition onstop_after_fetch (res : Response) : Js unit :=
  try_catch (Response_json res) onstop_catch.

(** line 37, after the body has parsed. *)
Definition onstop_after_json (data : JsValue) : Js unit :=
  try_catch
    (field ← get_transcription data;
     setTranscription (js_or field (JString "")))%js
    onstop_catch.

(** [startRecording], up to [await getUserMedia(...)] (line 13). *)
Definition startRecording : Js unit := getUserMedia.

(** [startRecording], lines 14-45, once the stream has arrived. *)
Definition startRecording_resume (stream : nat) : Js unit :=
  (mediaRecorder ← new_MediaRecorder stream;
   chunks ← Array_new;
   modify (with_audioChunksRef chunks);;
   set_ondataavailable mediaRecorder PushChunk;;
   set_onstop mediaRecorder FinalizeAndUpload;;
   modify (with_mediaRecorderRef (Some mediaRecorder));;
   MediaRecorder_start mediaRecorder;;
   setRecording true)%js.

(** [stopRecording] (lines 48-51) *)
Definition stopRecording : Js unit :=
  (current ← gets mediaRecorderRef;
   match current with
   | None => throw (mkError "TypeError" "Cannot read properties of null (reading 'stop')")
   | Some mediaRecorder => MediaRecorder_stop mediaRecorder
   end;;
   setRecording false)%js.

(** The textarea's [onChange] (line 73) and the send button (line 79). *)
Definition onChange (value : string) : Js unit := setTranscription (JString value).

Definition onSend : Js unit :=
  (t ← gets transcription;
   console_log "Enviar al modelo:" t)%js.

(** What the component renders (lines 53-84): the elements [App] returns.
    The textarea's [value] is handed over as it is; what React DOM then makes
    of it is [commit], in the event loop below. *)
Inductive Button := StartButton | StopButton.

Record View := mkView {
  view_button : Button;
  view_audio_src : option nat;
  view_textarea : JsValue
}.

Definition render (s : State) : View :=
  mkView (if recording s then StopButton else StartButton)
         (audioUrl s)
         (transcription s).

(** ** The event loop *)

(** What the user and the browser can do to the component.  The last event
    is a recorder stopping by itself: the tracks of its stream have ended
    (the device is gone, the permission withdrawn) or recording has failed.
    [streams] keeps the streams as [getUserMedia] handed them over; what the
    device does to a track afterwards is not recorded there. *)
Inductive Event :=
| ClickStart
| ClickStop
| EditText (value : string)
| ClickSend
| UserMediaResolved (stream : MediaStream)
| UserMediaRejected (err : JsError)
| DataAvailable (r : nat) (data : Blob)
| StopFired (r : nat)
| FetchResolved (res : Response)
| FetchRejected (err : JsError)
| JsonResolved (data : JsValue)
| JsonRejected (err : JsError)
| RecorderEnded (r : nat).

(** One task: an exception nobody catches is reported and the loop goes on
    with the state as the task left it. *)
Definition run_task (c : Js unit) (s : State) : option State :=
  match c s with
  | Some (Normal _, s') => Some s'
  | Some (Throw e, s') => Some (with_uncaught (uncaught s' ++ [e]) s')
  | None => None
  end.

(** After a handler has called [setTranscription], React renders again and
    React DOM gives the textarea its new value.  This happens outside the
    [try] of lines 30-40: if the value does not convert to a string, the
    TypeError reaches the event loop.  (React then takes the component off
    the page; the state keeps describing what the handlers, which the
    browser goes on calling, read and write.)  The other handlers leave the
    value as it is. *)
Definition commit (s : State) : State :=
  match coercion_error (view_textarea (render s)) with
  | Some e => with_uncaught (uncaught s ++ [e]) s
  | None => s
  end.

Definition run_update (c : Js unit) (s : State) : option State :=
  commit <$> run_task c s.

(** A recorder delivers data while it records and once more after it has
    stopped. *)
Definition emitting (m : MediaRecorder) : bool :=
  match mr_state m with
  | Recording => true
  | _ => mr_stop_queued m
  end.

(** [dispatch ev s] is [None] when [ev] cannot happen in [s]: a button that
    is not rendered, a promise that is not pending, a recorder that has
    nothing to deliver or is not recording. *)
Definition dispatch (ev : Event) (s : State) : option State :=
  match ev with
  | ClickStart =>
      match view_button (render s) with
      | StartButton => run_task startRecording s
      | StopButton => None
      end
  | ClickStop =>
      match view_button (render s) with
      | StopButton => run_task stopRecording s
      | StartButton => None
      end
  | EditText value => run_update (onChange value) s
  | ClickSend => run_task onSend s
  | UserMediaResolved st =>
      match pending_media s with
      | S n =>
          run_task (stream ← register_stream st; startRecording_resume stream)%js
                   (with_pending_media n s)
      | O => None
      end
  | UserMediaRejected err =>
      match pending_media s with
      | S n => run_task (throw err) (with_pending_media n s)
      | O => None
      end
  | DataAvailable r data =>
      match recorders s !! r with
      | Some m =>
          if emitting m then
            match mr_ondataavailable m with
            | Some PushChunk => run_task (ondataavailable data) s
            | None => Some s
            end
          else None
      | None => None
      end
  | StopFired r =>
      match recorders s !! r with
      | Some m =>
          if mr_stop_queued m then
            let s1 := with_recorders
                        (<[r := recorder_with_state (mr_state m) false m]> (recorders s)) s in
            match mr_onstop m with
            | Some FinalizeAndUpload => run_task onstop s1
            | None => Some s1
            end
          else None
      | None => None
      end
  | FetchResolved res =>
      match pending_fetch s with
      | S n => run_task (onstop_after_fetch res) (with_pending_fetch n s)
      | O => None
      end
  | FetchRejected err =>
      match pending_fetch s with
      | S n => run_update (onstop_catch err) (with_pending_fetch n s)
      | O => None
      end
  | JsonResolved data =>
      match pending_json s with
      | S n => run_update (onstop_after_json data) (with_pending_json n s)
      | O => None
      end
  | JsonRejected err =>
      match pending_json s with
      | S n => run_update (onstop_catch err) (with_pending_json n s)
      | O => None
      end
  | RecorderEnded r =>
      (* the recorder stops by itself (the tracks of its stream have ended,
         or recording has failed): the browser makes it inactive and queues
         its last data and its stop event, as [stop()] does; no handler of
         the component runs at this point *)
      match recorders s !! r with
      | Some m =>
          match mr_state m with
          | Inactive => None
          | _ =>
              Some (with_recorders (<[r := recorder_with_state Inactive true m]> (recorders s)) s)
          end
      | None => None
      end
  end.

Fixpoint run_trace (tr : list Event) (s : State) : option State :=
  match tr with
  | [] => Some s
  | ev :: rest =>
      match dispatch ev s with
      | Some s' => run_trace rest s'
      | None => None
      end
  end.

(** The fragments a trace delivers, in order. *)
Fixpoint emitted (tr : list Event) : list Blob :=
  match tr with
  | [] => []
  | DataAvailable _ data :: rest => data :: emitted rest
  | _ :: rest => emitted rest
  end.

Definition is_resume (ev : Event) : bool :=
  match ev with
  | UserMediaResolved _ => true
  | _ => false
  end.

(** [audioChunksRef.current], as a list. *)
Definition chunks (s : State) : list Blob :=
  default [] (arrays s !! audioChunksRef s).

(** ** Well-formed states

    The refs point at live objects and every recorder carries the two
    handlers; this holds initially and after every event. *)
Record wf (s : State) : Prop := mkWf {
  wf_chunks : is_Some (arrays s !! audioChunksRef s);
  wf_recorder : ∀ r, mediaRecorderRef s = Some r → is_Some (recorders s !! r);
  wf_recording : recording s = true → is_Some (mediaRecorderRef s);
  wf_handlers : ∀ r m, recorders s !! r = Some m →
                  mr_ondataavailable m = Some PushChunk ∧ mr_onstop m = Some FinalizeAndUpload
}.

(** ** What each event does, spelled out

    The event loop again, as a relation with the resulting state written
    out; [dispatch_step] and [step_dispatch] below show that it is the same
    thing as [dispatch] on well-formed states. *)

(** The request of lines 27-34. *)
Definition upload_request (blob : Blob) : Request :=
  mkRequest "http://127.0.0.1:8000/api/transcribe" "POST"
            (FormDataBody [mkEntry "audio_file" blob "audio.wav"]).

(** The text of line 39. *)
Definition error_text (err : JsError) : JsValue :=
  JString ("Error al transcribir: " +:+ message err).

(** The text line 37 (or, for [null], line 39) leaves in the textarea. *)
Definition shown_text (data : JsValue) : JsValue :=
  match data with
  | JNull =>
      error_text (mkError "TypeError" "Cannot read properties of null (reading 'transcription')")
  | JUndefined =>
      error_text (mkError "TypeError" "Cannot read properties of undefined (reading 'transcription')")
  | _ => js_or (default JUndefined (transcription_field data)) (JString "")
  end.

(** The state after lines 13-45: a new stream, a new recorder, a new array. *)
Definition resumed (st : MediaStream) (s : State) : State :=
  let h := fresh (dom (streams s)) in
  let r := fresh (dom (recorders s)) in
  let a := fresh (dom (arrays s)) in
  with_recording true
    (with_recorders
       (<[r := mkRecorder h Recording false (Some PushChunk) (Some FinalizeAndUpload)]>
          (recorders s))
       (with_mediaRecorderRef (Some r)
          (with_audioChunksRef a
             (with_arrays (<[a := []]> (arrays s))
                (with_streams (<[h := st]> (streams s)) s))))).

(** The blob of line 23 and the state after lines 23-34. *)
Definition finalized_blob (s : State) : Blob := new_Blob (chunks s) "audio/wav".

Definition finalized (s : State) : State :=
  let blob := finalized_blob s in
  let u := fresh (dom (blob_urls s)) in
  with_pending_fetch (S (pending_fetch s))
    (with_requests (requests s ++ [upload_request blob])
       (with_audioUrl (Some u) (with_blob_urls (<[u := blob]> (blob_urls s)) s))).

(** The state after lines 49-50, the current recorder being [r]. *)
Definition stopped (r : nat) (m : MediaRecorder) (s : State) : State :=
  with_recording false
    (match mr_state m with
     | Inactive => s
     | _ => with_recorders (<[r := recorder_with_state Inactive true m]> (recorders s)) s
     end).

Inductive step (s : State) : Event → State → Prop :=
| step_click_start :
    recording s = false →
    step s ClickStart (with_pending_media (S (pending_media s)) s)
| step_click_stop r m :
    recording s = true →
    mediaRecorderRef s = Some r →
    recorders s !! r = Some m →
    step s ClickStop (stopped r m s)
| step_edit value :
    step s (EditText value) (with_transcription (JString value) s)
| step_send :
    step s ClickSend (with_console (console s ++ [("Enviar al modelo:", transcription s)]) s)
| step_media_ok st n :
    pending_media s = S n →
    step s (UserMediaResolved st) (resumed st (with_pending_media n s))
| step_media_fail err n :
    pending_media s = S n →
    step s (UserMediaRejected err) (with_uncaught (uncaught s ++ [err]) (with_pending_media n s))
| step_data r m data :
    recorders s !! r = Some m →
    emitting m = true →
    step s (DataAvailable r data)
         (with_arrays (<[audioChunksRef s := chunks s ++ [data]]> (arrays s)) s)
| step_stop r m :
    recorders s !! r = Some m →
    mr_stop_queued m = true →
    step s (StopFired r)
         (finalized
            (with_recorders (<[r := recorder_with_state (mr_state m) false m]> (recorders s)) s))
| step_fetch_ok res n :
    pending_fetch s = S n →
    step s (FetchResolved res) (with_pending_json (S (pending_json s)) (with_pending_fetch n s))
| step_fetch_fail err n :
    pending_fetch s = S n →
    step s (FetchRejected err) (with_transcription (error_text err) (with_pending_fetch n s))
| step_json_ok data n :
    pending_json s = S n →
    step s (JsonResolved data)
         (commit (with_transcription (shown_text data) (with_pending_json n s)))
| step_json_fail err n :
    pending_json s = S n →
    step s (JsonRejected err) (with_transcription (error_text err) (with_pending_json n s))
| step_recorder_ended r m :
    recorders s !! r = Some m →
    mr_state m ≠ Inactive →
    step s (RecorderEnded r)
         (with_recorders (<[r := recorder_with_state Inactive true m]> (recorders s)) s).

(** ** Traces and their events *)

Definition no_resume (tr : list Event) : bool :=
  forallb (fun ev => negb (is_resume ev)) tr.

Definition is_stop_event (ev : Event) : bool :=
  match ev with
  | StopFired _ => true
  | _ => false
  end.








(** The ways an upload fails: the request is rejected, the body does not
    parse, or it parses to [null] and reading the field throws. *)
Definition upload_failure (ev : Event) : option JsError :=
  match ev with
  | FetchRejected err | JsonRejected err => Some err
  | JsonResolved JNull =>
      Some (mkError "TypeError" "Cannot read properties of null (reading 'transcription')")
  | JsonResolved JUndefined =>
      Some (mkError "TypeError" "Cannot read properties of undefined (reading 'transcription')")
  | _ => None
  end.

(** The promise that [ev] settles is pending in [s]. *)
Definition awaited (ev : Event) (s : State) : bool :=
  match ev with
  | FetchResolved _ | FetchRejected _ => bool_decide (0 < pending_fetch s)
  | JsonResolved _ | JsonRejected _ => bool_decide (0 < pending_json s)
  | _ => false
  end.

(** ** A sample run, from the first render

    One recording of two fragments, stopped and uploaded; the states are
    named after what the component is waiting for. *)

Definition mic : MediaStream := mkStream true [Live].
Definition frag1 : Blob := mkBlob [Byte.x01; Byte.x02] "audio/webm".
Definition frag2 : Blob := mkBlob [Byte.x03] "audio/webm".
Definition net_error : JsError := mkError "TypeError" "Failed to fetch".

Definition awaiting_media : State :=
  default initial_state (run_trace [ClickStart] initial_state).

Definition capture_trace : list Event :=
  [DataAvailable 0 frag1; ClickStop; DataAvailable 0 frag2].

Definition before_stop_event : State :=
  default initial_state (run_trace (UserMediaResolved mic :: capture_trace) awaiting_media).

Definition awaiting_fetch : State :=
  default initial_state (dispatch (StopFired 0) before_stop_event).

Definition awaiting_json : State :=
  default initial_state (dispatch (FetchResolved (mkResponse 200)) awaiting_fetch).

(** The second recording of the sample run: the first upload is still
    unanswered when it starts, and fails while it records. *)
Definition second_capture_trace : list Event :=
  [DataAvailable 1 frag2; FetchRejected net_error; DataAvailable 1 frag1].

(** The sample run, continued: the user types, the response arrives and its
    body is [null]. *)
Definition failure_trace : list Event :=
  [EditText "nota"; FetchResolved (mkResponse 200); JsonResolved JNull].

Definition after_failure : State :=
  default initial_state (run_trace failure_trace awaiting_fetch).

(** The sample run while it records, and after [stopRecording]. *)
Definition while_recording : State :=
  default initial_state (run_trace [ClickStart; UserMediaResolved mic] initial_state).

Definition after_stopRecording : State :=
  default initial_state (snd <$> stopRecording while_recording).

(** Two responses: the expected shape, and a field that is there but falsy. *)
Definition hola_response : JsValue := JObject [("transcription", JString "hola")].

Definition zero_response : JsValue :=
  JObject [("transcription", JNumber (S754_zero false))].

(** ** Further notions: counting events, invariants of the running component *)

(** How many events of a trace satisfy [P]. *)
Fixpoint count_events (P : Event → bool) (tr : list Event) : nat :=
  match tr with
  | [] => 0
  | ev :: rest => (if P ev then 1 else 0) + count_events P rest
  end.

(** The errors with which [getUserMedia] was rejected along a trace. *)
Fixpoint rejections (tr : list Event) : list JsError :=
  match tr with
  | [] => []
  | UserMediaRejected err :: rest => err :: rejections rest
  | _ :: rest => rejections rest
  end.

(** The [recording] flag (hence the button) agrees with the recorder the
    ref points at. *)
Definition synced (s : State) : Prop :=
  match mediaRecorderRef s with
  | Some r =>
      ∃ m, recorders s !! r = Some m ∧
           mr_state m = (if recording s then Recording else Inactive)
  | None => recording s = false
  end.

(** A recorder that records but is no longer the one the ref points at. *)
Definition orphaned (r : nat) (s : State) : Prop :=
  mediaRecorderRef s ≠ Some r ∧
  ∃ m, recorders s !! r = Some m ∧ mr_state m = Recording.

(** A value the textarea can show as it is: truthy, or the empty string. *)
Definition displayable (v : JsValue) : Prop :=
  to_boolean v = true ∨ v = JString "".

(** The events whose handlers call [setTranscription]. *)
Definition touches_text (ev : Event) : bool :=
  match ev with
  | EditText _ | FetchRejected _ | JsonResolved _ | JsonRejected _ => true
  | _ => false
  end.

(** The same event with the response's status forgotten. *)
Definition erase_status (ev : Event) : Event :=
  match ev with
  | FetchResolved _ => FetchResolved (mkResponse 0)
  | _ => ev
  end.



(** One whole session of recorder [r]: start, the fragments, stop. *)
Definition session_trace (st : MediaStream) (r : nat) (fragments : list Blob) : list Event :=
  [ClickStart; UserMediaResolved st] ++ (DataAvailable r <$> fragments) ++ [ClickStop; StopFired r].

(** ** A second sample run: the start button clicked twice before the
    microphone is granted *)

Definition double_start : State :=
  default initial_state
    (run_trace [ClickStart; ClickStart; UserMediaResolved mic; UserMediaResolved mic]
               initial_state).

(** The first recorder is stopped before the second stream arrives; both
    stop events are then due at once. *)
Definition two_stops_due : State :=
  default initial_state
    (run_trace [ClickStart; ClickStart; UserMediaResolved mic; ClickStop;
                UserMediaResolved mic; DataAvailable 1 frag1; ClickStop]
               initial_state).

(** The first stop event has run, then a last fragment and the second. *)
Definition first_stop_done : State :=
  default initial_state (dispatch (StopFired 0) two_stops_due).

Definition second_stop_done : State :=
  default initial_state (run_trace [DataAvailable 1 frag2; StopFired 1] first_stop_done).




(** A response whose field is an object that cannot be converted to a string. *)
Definition unshowable_response : JsValue :=
  JObject [("transcription",
            JObject [("toString", JNumber (S754_finite false 1 0));
                     ("valueOf", JNumber (S754_finite false 1 0))])].

(** The response of this event, if it is one, gives a text that converts
    to a string. *)
Definition shows (ev : Event) : bool :=
  match ev with
  | JsonResolved data => negb (string_conversion_throws (shown_text data))
  | _ => true
  end.

(** The first sample run again, after a first attempt that was denied; it
    ends where the body of the response is awaited. *)
Definition denied_then_recorded : list Event :=
  [ClickStart; UserMediaRejected net_error; ClickStart; UserMediaResolved mic]
    ++ capture_trace ++ [StopFired 0; FetchResolved (mkResponse 200)].

Definition denied_awaiting_json : State :=
  default initial_state (run_trace denied_then_recorded initial_state).

Definition is_recorder_ended (ev : Event) : bool :=
  match ev with
  | RecorderEnded _ => true
  | _ => false
  end.

Definition no_self_stop (tr : list Event) : bool :=
  forallb (fun ev => negb (is_recorder_ended ev)) tr.

(** What is left of [synced] when a recorder may stop by itself: the
    recorder the ref points at is inactive, or it records and the flag says so. *)
Definition loosely_synced (s : State) : Prop :=
  match mediaRecorderRef s with
  | Some r =>
      ∃ m, recorders s !! r = Some m ∧
           (mr_state m = Inactive ∨ (mr_state m = Recording ∧ recording s = true))
  | None => recording s = false
  end.

(** A run in which the recorder stops by itself and its stop event runs. *)
Definition self_stopped : State :=
  default initial_state
    (run_trace [ClickStart; UserMediaResolved mic; RecorderEnded 0; StopFired 0] initial_state).

(** The event by which recorder [r] stops by itself. *)
Definition ends (r : nat) (ev : Event) : bool :=
  match ev with
  | RecorderEnded r' => bool_decide (r' = r)
  | _ => false
  end.

(** * Properties *)

Section Facts.
Implicit Types (s : State) (ev : Event) (tr : list Event).

(** The commit after a response: either way only [uncaught] can differ. *)
Ltac commit_cases :=
  unfold commit; simpl;
  match goal with
  | |- context [coercion_error ?v] => destruct (coercion_error v)
  end; simpl.

Lemma wf_initial : wf initial_state.
Proof.
  split; simpl.
  - rewrite lookup_singleton_eq. eauto.
  - intros r Hr. discriminate.
  - intros Hr. discriminate.
  - intros r m Hm. rewrite lookup_empty in Hm. discriminate.
Qed.

Lemma startRecording_resume_eq stream s :
  let r := fresh (dom (recorders s)) in
  let a := fresh (dom (arrays s)) in
  startRecording_resume stream s =
    Some (Normal tt,
          with_recording true
            (with_recorders
               (<[r := mkRecorder stream Recording false (Some PushChunk) (Some FinalizeAndUpload)]>
                  (recorders s))
               (with_mediaRecorderRef (Some r)
                  (with_audioChunksRef a
                     (with_arrays (<[a := []]> (arrays s)) s))))).
Proof.
  intros r a. unfold startRecording_resume, bind, new_MediaRecorder, Array_new, modify,
    set_ondataavailable, set_onstop, update_recorder, MediaRecorder_start, setRecording.
  simpl. fold r a.
  repeat (rewrite lookup_insert_eq; simpl).
  unfold with_recording, with_recorders, with_mediaRecorderRef; simpl.
  rewrite !insert_insert_eq. reflexivity.
Qed.

Lemma ondataavailable_eq data s items :
  arrays s !! audioChunksRef s = Some items →
  ondataavailable data s =
    Some (Normal tt, with_arrays (<[audioChunksRef s := items ++ [data]]> (arrays s)) s).
Proof.
  intros H. unfold ondataavailable, bind, gets, Array_push. simpl. by rewrite H.
Qed.

Lemma onstop_finalize_eq s items :
  arrays s !! audioChunksRef s = Some items →
  let blob := new_Blob items "audio/wav" in
  let u := fresh (dom (blob_urls s)) in
  onstop_finalize s =
    Some (Normal blob, with_audioUrl (Some u) (with_blob_urls (<[u := blob]> (blob_urls s)) s)).
Proof.
  intros H blob u.
  unfold onstop_finalize, bind, gets, Array_items, URL_createObjectURL, setAudioUrl, modify, ret.
  simpl. by rewrite H.
Qed.

Lemma onstop_upload_eq blob s :
  onstop_upload blob s =
    Some (Normal tt,
          with_pending_fetch (S (pending_fetch s))
            (with_requests (requests s ++ [upload_request blob]) s)).
Proof. reflexivity. Qed.

Lemma onstop_eq s items :
  arrays s !! audioChunksRef s = Some items →
  let blob := new_Blob items "audio/wav" in
  let u := fresh (dom (blob_urls s)) in
  onstop s =
    Some (Normal tt,
          with_pending_fetch (S (pending_fetch s))
            (with_requests (requests s ++ [upload_request blob])
               (with_audioUrl (Some u) (with_blob_urls (<[u := blob]> (blob_urls s)) s)))).
Proof.
  intros H blob u. unfold onstop, bind.
  rewrite (onstop_finalize_eq s items H). reflexivity.
Qed.

Lemma onstop_catch_eq err s :
  onstop_catch err s =
    Some (Normal tt, with_transcription (JString ("Error al transcribir: " +:+ message err)) s).
Proof. reflexivity. Qed.

(** *** The event loop as a relation *)

Lemma onstop_after_json_eq data s :
  onstop_after_json data s = Some (Normal tt, with_transcription (shown_text data) s).
Proof. by destruct data. Qed.

Lemma stopRecording_null s :
  mediaRecorderRef s = None →
  stopRecording s =
    Some (Throw (mkError "TypeError" "Cannot read properties of null (reading 'stop')"), s).
Proof. intros H. unfold stopRecording, bind, gets. simpl. by rewrite H. Qed.

Lemma stopRecording_eq s r m :
  mediaRecorderRef s = Some r →
  recorders s !! r = Some m →
  stopRecording s = Some (Normal tt, stopped r m s).
Proof.
  intros Hr Hm. unfold stopRecording, bind, gets, MediaRecorder_stop, stopped. simpl.
  rewrite Hr, Hm. by destruct (mr_state m).
Qed.

Lemma resume_eq st s :
  bind (register_stream st) startRecording_resume s = Some (Normal tt, resumed st s).
Proof.
  unfold bind, register_stream. rewrite startRecording_resume_eq. reflexivity.
Qed.

Lemma chunks_lookup s : wf s → arrays s !! audioChunksRef s = Some (chunks s).
Proof. intros [[items H] _ _ _]. unfold chunks. by rewrite H. Qed.

(** On well-formed states the event loop is the relation above. *)
Lemma dispatch_step ev s s' : wf s → dispatch ev s = Some s' → step s ev s'.
Proof.
  intros Hwf H. pose proof (chunks_lookup s Hwf) as Hc.
  destruct Hwf as [_ Hr Hrec Hh].
  destruct ev; simpl in H; unfold run_update, run_task in H.
  - destruct (recording s) eqn:E; [done|].
    injection H as <-. by constructor.
  - destruct (recording s) eqn:E; [|done].
    destruct (Hrec eq_refl) as [r Hm]. destruct (Hr r Hm) as [m Hl].
    rewrite (stopRecording_eq s r m Hm Hl) in H.
    injection H as <-. by econstructor.
  - injection H as <-. constructor.
  - injection H as <-. constructor.
  - destruct (pending_media s) eqn:E; [done|].
    rewrite resume_eq in H. injection H as <-. by constructor.
  - destruct (pending_media s) eqn:E; [done|].
    injection H as <-. by constructor.
  - destruct (recorders s !! r) as [m|] eqn:E; [|done].
    destruct (emitting m) eqn:Em; [|done].
    destruct (Hh r m E) as [Hd _]. rewrite Hd in H.
    rewrite (ondataavailable_eq _ _ _ Hc) in H.
    injection H as <-. by econstructor.
  - destruct (recorders s !! r) as [m|] eqn:E; [|done].
    destruct (mr_stop_queued m) eqn:Em; [|done].
    destruct (Hh r m E) as [_ Hs]. rewrite Hs in H.
    erewrite onstop_eq in H by exact Hc.
    injection H as <-. by econstructor.
  - destruct (pending_fetch s) eqn:E; [done|].
    injection H as <-. by constructor.
  - destruct (pending_fetch s) eqn:E; [done|].
    injection H as <-. by constructor.
  - destruct (pending_json s) eqn:E; [done|].
    rewrite onstop_after_json_eq in H. injection H as <-. by constructor.
  - destruct (pending_json s) eqn:E; [done|].
    injection H as <-. by constructor.
  - destruct (recorders s !! r) as [m|] eqn:E; [|done].
    destruct (mr_state m) eqn:Est; [done| |];
      injection H as <-; econstructor; [done|congruence|done|congruence].
Qed.

Lemma step_dispatch ev s s' : wf s → step s ev s' → dispatch ev s = Some s'.
Proof.
  intros Hwf H. pose proof (chunks_lookup s Hwf) as Hc.
  destruct Hwf as [_ _ _ Hh].
  destruct H; simpl; unfold run_update, run_task.
  - by rewrite H.
  - rewrite H. by rewrite (stopRecording_eq s r m).
  - done.
  - done.
  - rewrite H. by rewrite resume_eq.
  - by rewrite H.
  - rewrite H, H0. destruct (Hh r m H) as [-> _].
    by rewrite (ondataavailable_eq _ _ _ Hc).
  - rewrite H, H0. destruct (Hh r m H) as [_ ->].
    by erewrite onstop_eq by exact Hc.
  - by rewrite H.
  - by rewrite H.
  - rewrite H. by rewrite onstop_after_json_eq.
  - by rewrite H.
  - rewrite H. by destruct (mr_state m).
Qed.

Lemma step_wf ev s s' : wf s → step s ev s' → wf s'.
Proof.
  intros [Hc Hr Hrec Hh] H.
  destruct H; try (split; simpl; assumption).
  - (* stop *)
    assert (∀ st q r', is_Some (recorders s !! r') →
              is_Some (<[r := recorder_with_state st q m]> (recorders s) !! r')) as Hsome.
    { intros st q r' Hr'. destruct (decide (r = r')) as [->|Hne];
        [rewrite lookup_insert_eq; eauto | by rewrite lookup_insert_ne]. }
    assert (∀ st q r' m', <[r := recorder_with_state st q m]> (recorders s) !! r' = Some m' →
              mr_ondataavailable m' = Some PushChunk ∧ mr_onstop m' = Some FinalizeAndUpload)
      as Hkeep.
    { intros st q r' m' Hm'. destruct (decide (r = r')) as [->|Hne].
      - rewrite lookup_insert_eq in Hm'. injection Hm' as <-. simpl. eauto.
      - rewrite lookup_insert_ne in Hm' by done. eauto. }
    unfold stopped. destruct (mr_state m); split; simpl; eauto; done.
  - (* resume *)
    unfold resumed. split; simpl.
    + rewrite lookup_insert_eq. eauto.
    + intros r' [= <-]. rewrite lookup_insert_eq. eauto.
    + eauto.
    + intros r' m' Hm'.
      destruct (decide (fresh (dom (recorders s)) = r')) as [<-|Hne].
      * rewrite lookup_insert_eq in Hm'. injection Hm' as <-. simpl. eauto.
      * rewrite lookup_insert_ne in Hm' by done. eauto.
  - (* data *)
    split; simpl; try done. rewrite lookup_insert_eq. eauto.
  - (* stop event *)
    unfold finalized. split; simpl; try done.
    + intros r' Hr'. destruct (decide (r = r')) as [->|Hne];
        [rewrite lookup_insert_eq; eauto | rewrite lookup_insert_ne by done; eauto].
    + intros r' m' Hm'. destruct (decide (r = r')) as [->|Hne];
        [rewrite lookup_insert_eq in Hm'; injection Hm' as <-; simpl; eauto
        | rewrite lookup_insert_ne in Hm' by done; eauto].
  - (* a response: the commit only reports *)
    unfold commit. simpl. destruct (coercion_error (shown_text data)); by split.
  - (* the recorder stops by itself *)
    split; simpl; try done.
    + intros r' Hr'. destruct (decide (r = r')) as [->|Hne];
        [rewrite lookup_insert_eq; eauto | rewrite lookup_insert_ne by done; eauto].
    + intros r' m' Hm'. destruct (decide (r = r')) as [->|Hne];
        [rewrite lookup_insert_eq in Hm'; injection Hm' as <-; simpl; eauto
        | rewrite lookup_insert_ne in Hm' by done; eauto].
Qed.

Lemma dispatch_wf ev s s' : wf s → dispatch ev s = Some s' → wf s'.
Proof. intros Hwf H. eapply step_wf; [done|]. by apply dispatch_step. Qed.

Lemma run_trace_wf tr : ∀ s s', wf s → run_trace tr s = Some s' → wf s'.
Proof.
  induction tr as [|ev tr IH]; simpl; intros s s' Hwf H.
  - by injection H as <-.
  - destruct (dispatch ev s) as [s1|] eqn:E; [|done].
    eapply IH; [|done]. by eapply dispatch_wf.
Qed.

(** Every state the component can reach from its first render is
    well-formed, so the statements below that assume [wf] cover all of them. *)
Lemma reachable_wf tr s : run_trace tr initial_state = Some s → wf s.
Proof. apply run_trace_wf, wf_initial. Qed.

Lemma run_trace_app tr1 tr2 s :
  run_trace (tr1 ++ tr2) s = run_trace tr1 s ≫= run_trace tr2.
Proof.
  revert s. induction tr1 as [|ev tr1 IH]; simpl; intros s; [done|].
  destruct (dispatch ev s); simpl; [apply IH | done].
Qed.

(** *** The accumulated fragments *)

Lemma step_chunks ev s s' :
  wf s → step s ev s' →
  chunks s' = if is_resume ev then [] else chunks s ++ emitted [ev].
Proof.
  intros Hwf H. destruct H; unfold chunks; simpl; rewrite ?app_nil_r; try done.
  - unfold stopped. by destruct (mr_state m).
  - by rewrite lookup_insert_eq.
  - by rewrite lookup_insert_eq.
  - by commit_cases.
Qed.

Lemma emitted_cons ev tr : emitted (ev :: tr) = emitted [ev] ++ emitted tr.
Proof. by destruct ev. Qed.

Lemma run_trace_chunks tr : ∀ s s',
  wf s → no_resume tr = true → run_trace tr s = Some s' →
  chunks s' = chunks s ++ emitted tr.
Proof.
  induction tr as [|ev tr IH]; intros s s' Hwf Hno H.
  - injection H as <-. simpl. by rewrite app_nil_r.
  - rewrite emitted_cons. simpl in H, Hno.
    destruct (dispatch ev s) as [s1|] eqn:E; [|done].
    apply andb_prop in Hno as [Hev Hno].
    pose proof (dispatch_step _ _ _ Hwf E) as Hstep.
    rewrite (IH s1 s' (step_wf _ _ _ Hwf Hstep) Hno H).
    rewrite (step_chunks _ _ _ Hwf Hstep).
    destruct (is_resume ev); [done|].
    by rewrite app_assoc.
Qed.

Lemma stop_event_blob r s s' :
  wf s → dispatch (StopFired r) s = Some s' →
  let u := fresh (dom (blob_urls s)) in
  audioUrl s' = Some u ∧
  blob_urls s' !! u = Some (finalized_blob s) ∧
  blob_urls s !! u = None ∧
  requests s' = requests s ++ [upload_request (finalized_blob s)] ∧
  uncaught s' = uncaught s.
Proof.
  intros Hwf H u. apply dispatch_step in H; [|done].
  inversion H; subst. unfold finalized, finalized_blob, chunks. simpl.
  fold u. rewrite lookup_insert_eq. repeat split; try done.
  apply not_elem_of_dom, is_fresh.
Qed.

Lemma wf_awaiting_media : wf awaiting_media.
Proof.
  apply (run_trace_wf [ClickStart] initial_state); [apply wf_initial | by vm_compute].
Qed.

Lemma wf_before_stop_event : wf before_stop_event.
Proof.
  apply (run_trace_wf (UserMediaResolved mic :: capture_trace) awaiting_media);
    [apply wf_awaiting_media | by vm_compute].
Qed.

Lemma wf_awaiting_fetch : wf awaiting_fetch.
Proof.
  apply (dispatch_wf (StopFired 0) before_stop_event);
    [apply wf_before_stop_event | by vm_compute].
Qed.

Lemma wf_awaiting_json : wf awaiting_json.
Proof.
  apply (dispatch_wf (FetchResolved (mkResponse 200)) awaiting_fetch);
    [apply wf_awaiting_fetch | by vm_compute].
Qed.

(** The sample recording delivers three bytes in two fragments. *)
Example sample_blob_bytes :
  (blob_urls awaiting_fetch !! 0) = Some (mkBlob [Byte.x01; Byte.x02; Byte.x03] "audio/wav").
Proof. by vm_compute. Qed.

(** *** Lifting one-event facts to traces *)

Lemma run_trace_rel (R : State → State → Prop) (P : Event → bool) :
  (∀ s, R s s) →
  (∀ s1 s2 s3, R s1 s2 → R s2 s3 → R s1 s3) →
  (∀ ev s s', wf s → P ev = true → step s ev s' → R s s') →
  ∀ tr s s', wf s → forallb P tr = true → run_trace tr s = Some s' → R s s'.
Proof.
  intros Hrefl Htrans Hone. induction tr as [|ev tr IH]; simpl; intros s s' Hwf HP H.
  - injection H as <-. apply Hrefl.
  - destruct (dispatch ev s) as [s1|] eqn:E; [|done].
    apply andb_prop in HP as [Hev HP].
    pose proof (dispatch_step _ _ _ Hwf E) as Hstep.
    apply Htrans with s1; [by apply (Hone ev)|].
    apply IH; [by eapply step_wf | done | done].
Qed.





(** Only the stop event touches the playable reference. *)
Lemma step_audioUrl ev s s' :
  is_stop_event ev = false → step s ev s' →
  audioUrl s' = audioUrl s ∧ blob_urls s' = blob_urls s.
Proof.
  intros Hev H. destruct H; try discriminate; try done.
  - unfold stopped. by destruct (mr_state m).
  - by commit_cases.
Qed.


(** Only a new recording touches the streams. *)
Lemma step_streams ev s s' :
  is_resume ev = false → step s ev s' → streams s' = streams s.
Proof.
  intros Hev H. destruct H; try discriminate; try done.
  - unfold stopped. by destruct (mr_state m).
  - by commit_cases.
Qed.

(** C7. A recording that is stopped before any fragment arrives: the three
    events run to completion without an exception, and the blob that is
    bound to the playable URL and uploaded has no bytes. *)
Theorem empty_recording_finalizes s st n :
  wf s →
  pending_media s = S n →
  ∃ s',
    run_trace [UserMediaResolved st; ClickStop; StopFired (fresh (dom (recorders s)))] s
      = Some s' ∧
    uncaught s' = uncaught s ∧
    ∃ u blob,
      audioUrl s' = Some u ∧
      blob_urls s' !! u = Some blob ∧
      last (requests s') = Some (upload_request blob) ∧
      blob_bytes blob = [] ∧
      length (blob_bytes blob) = 0.
Proof.
  intros Hwf Hp.
  set (r := fresh (dom (recorders s))).
  pose proof (step_media_ok s st n Hp) as H1.
  pose proof (step_wf _ _ _ Hwf H1) as Hwf1.
  set (s1 := resumed st (with_pending_media n s)) in *.
  set (m1 := mkRecorder (fresh (dom (streams s))) Recording false
                        (Some PushChunk) (Some FinalizeAndUpload)).
  assert (recorders s1 !! r = Some m1) as Hm1 by apply lookup_insert_eq.
  pose proof (step_click_stop s1 r m1 eq_refl eq_refl Hm1) as H2.
  pose proof (step_wf _ _ _ Hwf1 H2) as Hwf2.
  set (s2 := stopped r m1 s1) in *.
  set (m2 := recorder_with_state Inactive true m1).
  assert (recorders s2 !! r = Some m2) as Hm2 by apply lookup_insert_eq.
  pose proof (step_stop s2 r m2 Hm2 eq_refl) as H3.
  eexists. split.
  { cbn [run_trace].
    rewrite (step_dispatch _ _ _ Hwf H1), (step_dispatch _ _ _ Hwf1 H2),
      (step_dispatch _ _ _ Hwf2 H3). reflexivity. }
  split; [reflexivity|].
  exists (fresh (dom (blob_urls s))), (mkBlob [] "audio/wav").
  assert (finalized_blob
            (with_recorders (<[r := recorder_with_state (mr_state m2) false m2]> (recorders s2)) s2)
          = mkBlob [] "audio/wav") as Hb.
  { unfold finalized_blob, chunks. simpl. by rewrite lookup_insert_eq. }
  unfold finalized. rewrite Hb. simpl.
  repeat split; try done.
  - apply lookup_insert_eq.
  - apply last_snoc.
Qed.

Lemma empty_recording_finalizes_witness :
  ∃ s',
    run_trace [UserMediaResolved mic; ClickStop; StopFired (fresh (dom (recorders awaiting_media)))]
              awaiting_media = Some s' ∧
    uncaught s' = uncaught awaiting_media ∧
    ∃ u blob,
      audioUrl s' = Some u ∧
      blob_urls s' !! u = Some blob ∧
      last (requests s') = Some (upload_request blob) ∧
      blob_bytes blob = [] ∧
      length (blob_bytes blob) = 0.
Proof.
  apply (empty_recording_finalizes awaiting_media mic 0).
  - apply wf_awaiting_media.
  - reflexivity.
Defined.

(** *** Which recorder the fragments come from *)








Lemma data_phase_runs r m fragments : ∀ s,
  wf s →
  recorders s !! r = Some m →
  emitting m = true →
  ∃ s',
    run_trace (DataAvailable r <$> fragments) s = Some s' ∧
    wf s' ∧
    chunks s' = chunks s ++ fragments ∧
    recording s' = recording s ∧
    mediaRecorderRef s' = mediaRecorderRef s ∧
    recorders s' = recorders s ∧
    uncaught s' = uncaught s ∧
    blob_urls s' = blob_urls s ∧
    requests s' = requests s.
Proof.
  induction fragments as [|data rest IH]; intros s Hwf Hm Hem.
  - exists s. simpl. rewrite app_nil_r. by split_and!.
  - pose proof (step_data s r m data Hm Hem) as Hstep.
    pose proof (step_wf _ _ _ Hwf Hstep) as Hwf1.
    set (s1 := with_arrays (<[audioChunksRef s := chunks s ++ [data]]> (arrays s)) s) in *.
    destruct (IH s1 Hwf1 Hm Hem) as (s' & Hrun & Hwf' & Hc & Hrec & Href & Hrs & Hu & Hb & Hq).
    exists s'. split_and!; try done.
    + cbn [fmap list_fmap run_trace]. by rewrite (step_dispatch _ _ _ Hwf Hstep).
    + rewrite Hc. unfold chunks at 1. simpl. rewrite lookup_insert_eq. simpl.
      by rewrite <- app_assoc.
Qed.









(** The sample run goes through: one upload pending, a second recording with
    two fragments of its own. *)
Example second_recording_runs :
  pending_fetch awaiting_fetch = 1 ∧
  (chunks <$> run_trace ([ClickStart; UserMediaResolved mic] ++ second_capture_trace)
                        awaiting_fetch) = Some [frag2; frag1].
Proof. by vm_compute. Qed.

(** *** The upload *)

(** C6. Each run of the upload (one per stop event) sends exactly one
    request: a POST to the fixed endpoint whose multipart/form-data body has
    the single part [audio_file], filename [audio.wav], holding the blob built
    from the accumulated fragments.  No other event sends anything, so
    nothing is retried or repeated. *)
Theorem upload_issues_one_post ev s s' :
  wf s →
  dispatch ev s = Some s' →
  if is_stop_event ev then
    ∃ req,
      requests s' = requests s ++ [req] ∧
      req_url req = "http://127.0.0.1:8000/api/transcribe" ∧
      req_method req = "POST" ∧
      body_content_type (req_body req) = "multipart/form-data" ∧
      req_body req = FormDataBody [mkEntry "audio_file" (new_Blob (chunks s) "audio/wav") "audio.wav"]
  else requests s' = requests s.
Proof.
  intros Hwf H. apply dispatch_step in H; [|done].
  destruct H; simpl; try done.
  - unfold stopped. by destruct (mr_state m).
  - eexists. split; [reflexivity|]. by split_and!.
  - by commit_cases.
Qed.

Lemma upload_issues_one_post_witness :
  ∃ req,
    requests awaiting_fetch = requests before_stop_event ++ [req] ∧
    req_url req = "http://127.0.0.1:8000/api/transcribe" ∧
    req_method req = "POST" ∧
    body_content_type (req_body req) = "multipart/form-data" ∧
    req_body req =
      FormDataBody [mkEntry "audio_file" (new_Blob (chunks before_stop_event) "audio/wav")
                            "audio.wav"].
Proof.
  apply (upload_issues_one_post (StopFired 0) before_stop_event awaiting_fetch).
  - apply wf_before_stop_event.
  - vm_compute; reflexivity.
Defined.

Lemma upload_failure_dispatch ev err s :
  upload_failure ev = Some err →
  awaited ev s = true →
  ∃ s0, dispatch ev s = Some (with_transcription (error_text err) s0) ∧
        uncaught s0 = uncaught s ∧ audioUrl s0 = audioUrl s ∧ blob_urls s0 = blob_urls s ∧
        ∀ old, dispatch ev (with_transcription old s) = dispatch ev s.
Proof.
  intros Hf Hp. destruct ev; try discriminate; simpl in *.
  - apply bool_decide_eq_true in Hp. injection Hf as ->.
    destruct (pending_fetch s) eqn:E; [lia|]. by eexists.
  - apply bool_decide_eq_true in Hp.
    destruct (pending_json s) eqn:E; [lia|].
    destruct data; try discriminate; injection Hf as <-; by eexists.
  - apply bool_decide_eq_true in Hp. injection Hf as ->.
    destruct (pending_json s) eqn:E; [lia|]. by eexists.
Qed.

(** C3. When the request is rejected or the response does not parse, the
    exception stops at the [catch]: nothing is reported as uncaught, and the
    textarea shows a sentence that ends with the failure message. *)
Theorem upload_failure_is_shown ev err s :
  upload_failure ev = Some err →
  awaited ev s = true →
  ∃ s',
    dispatch ev s = Some s' ∧
    uncaught s' = uncaught s ∧
    transcription s' = JString ("Error al transcribir: " +:+ message err) ∧
    view_textarea (render s') = JString ("Error al transcribir: " +:+ message err).
Proof.
  intros Hf Hp. destruct (upload_failure_dispatch ev err s Hf Hp) as (s0 & H & Hu & _).
  eexists. split; [exact H|]. by split_and!.
Qed.

Lemma upload_failure_is_shown_witness :
  ∃ s',
    dispatch (FetchRejected net_error) awaiting_fetch = Some s' ∧
    uncaught s' = uncaught awaiting_fetch ∧
    transcription s' = JString ("Error al transcribir: " +:+ message net_error) ∧
    view_textarea (render s') = JString ("Error al transcribir: " +:+ message net_error).
Proof.
  apply (upload_failure_is_shown (FetchRejected net_error) net_error awaiting_fetch).
  - reflexivity.
  - vm_compute; reflexivity.
Defined.

(** C5. A failed upload replaces the text without asking: whatever the
    textarea held, and whatever the user typed just before, the state after
    the failure is the same, and its text is the error sentence. *)
Theorem upload_failure_overwrites_text ev err s value old :
  upload_failure ev = Some err →
  awaited ev s = true →
  ∃ s',
    run_trace [EditText value; ev] s = Some s' ∧
    dispatch ev (with_transcription old s) = Some s' ∧
    dispatch ev s = Some s' ∧
    transcription s' = JString ("Error al transcribir: " +:+ message err) ∧
    view_textarea (render s') = JString ("Error al transcribir: " +:+ message err).
Proof.
  intros Hf Hp. destruct (upload_failure_dispatch ev err s Hf Hp) as (s0 & H & _ & _ & _ & Hold).
  eexists. split_and!; try done.
  - assert (run_trace [EditText value; ev] s
            = dispatch ev (with_transcription (JString value) s)) as ->.
    { cbn [run_trace].
      change (dispatch (EditText value) s) with (Some (with_transcription (JString value) s)).
      cbv iota. by destruct (dispatch ev (with_transcription (JString value) s)). }
    by rewrite Hold.
  - by rewrite Hold.
Qed.

Lemma upload_failure_overwrites_text_witness :
  ∃ s',
    run_trace [EditText "hola mundo"; JsonRejected net_error] awaiting_json = Some s' ∧
    dispatch (JsonRejected net_error) (with_transcription (JString "hola") awaiting_json)
      = Some s' ∧
    dispatch (JsonRejected net_error) awaiting_json = Some s' ∧
    transcription s' = JString ("Error al transcribir: " +:+ message net_error) ∧
    view_textarea (render s') = JString ("Error al transcribir: " +:+ message net_error).
Proof.
  apply (upload_failure_overwrites_text (JsonRejected net_error) net_error awaiting_json).
  - reflexivity.
  - vm_compute; reflexivity.
Defined.

(** *** The playable reference *)




(** In the sample run the upload fails on a [null] body after the user has
    typed: the text is the error sentence, the audio element still plays
    the recording. *)
Example sample_run_failure :
  run_trace failure_trace awaiting_fetch = Some after_failure ∧
  render after_failure =
    mkView StartButton (Some 0)
           (JString "Error al transcribir: Cannot read properties of null (reading 'transcription')") ∧
  blob_urls after_failure !! 0 = Some (mkBlob [Byte.x01; Byte.x02; Byte.x03] "audio/wav").
Proof. by vm_compute. Qed.

(** *** Stopping *)

(** C8. [stopRecording] does not look at the [recording] flag: whether it
    returns or throws, and what it throws, is the same whatever the flag says.
    With the recorder ref still [null], as after the first render, the call
    [mediaRecorderRef.current.stop()] throws a TypeError: nothing is returned,
    the state is as before, and the event loop reports the exception as
    uncaught. *)
Theorem stop_while_idle_is_unguarded :
  mediaRecorderRef initial_state = None ∧
  recording initial_state = false ∧
  stopRecording initial_state =
    Some (Throw (mkError "TypeError" "Cannot read properties of null (reading 'stop')"),
          initial_state) ∧
  (∀ s, stopRecording (with_mediaRecorderRef None s) =
          Some (Throw (mkError "TypeError" "Cannot read properties of null (reading 'stop')"),
                with_mediaRecorderRef None s)) ∧
  run_task stopRecording initial_state =
    Some (with_uncaught
            [mkError "TypeError" "Cannot read properties of null (reading 'stop')"]
            initial_state) ∧
  (∀ s b, fst <$> stopRecording (with_recording b s) = fst <$> stopRecording s).
Proof.
  split_and!.
  - done.
  - done.
  - by apply stopRecording_null.
  - intros s. by apply stopRecording_null.
  - unfold run_task. by rewrite stopRecording_null.
  - intros s b. unfold stopRecording, bind, gets, MediaRecorder_stop. simpl.
    destruct (mediaRecorderRef s) as [r|]; simpl; [|done].
    destruct (recorders s !! r) as [m|]; simpl; [|done].
    by destruct (mr_state m).
Qed.

(** C9. [stopRecording] leaves the acquired streams alone: whether it
    returns or throws, the stream table is the one it started with, so every
    stream is as active as before and its tracks are in the state they were
    in; and every recorder still holds the stream it was built on. *)
Theorem stop_keeps_streams s c s' :
  stopRecording s = Some (c, s') →
  streams s' = streams s ∧
  (∀ h st, streams s !! h = Some st → streams s' !! h = Some st) ∧
  (∀ r m', recorders s' !! r = Some m' →
           ∃ m, recorders s !! r = Some m ∧ mr_stream m' = mr_stream m).
Proof.
  unfold stopRecording, bind, gets, MediaRecorder_stop, setRecording, modify, throw. simpl.
  intros H.
  destruct (mediaRecorderRef s) as [r0|]; [|injection H as <- <-; by eauto].
  destruct (recorders s !! r0) as [m0|] eqn:E0; [|done].
  destruct (mr_state m0); injection H as <- <-; simpl; split_and!; eauto.
  all: intros r m' Hm'; destruct (decide (r0 = r)) as [->|Hne];
    [rewrite lookup_insert_eq in Hm'; injection Hm' as <-; eauto
    | rewrite lookup_insert_ne in Hm' by done; eauto].
Qed.

Lemma stop_keeps_streams_witness :
  streams after_stopRecording = streams while_recording ∧
  (∀ h st, streams while_recording !! h = Some st → streams after_stopRecording !! h = Some st) ∧
  (∀ r m', recorders after_stopRecording !! r = Some m' →
           ∃ m, recorders while_recording !! r = Some m ∧ mr_stream m' = mr_stream m).
Proof.
  apply (stop_keeps_streams while_recording (Normal tt) after_stopRecording).
  vm_compute; reflexivity.
Defined.

(** The stream of the sample run is live before and after. *)
Example stream_still_live :
  streams while_recording !! 0 = Some mic ∧ streams after_stopRecording !! 0 = Some mic.
Proof. by vm_compute. Qed.

(** *** The response *)

(** C2, as far as it holds.  Take a response that is not [null] and whose
    [transcription] field, if it has one, can be converted to a string.
    Then the text becomes the field when the field is there and truthy
    (every non-empty string is), and the empty string when the field is
    missing or falsy; no exception is raised, neither by the handler nor by
    the rendering that follows.  So a string field is always shown exactly,
    and [{"transcription": "hola"}] gives ["hola"]. *)
Theorem response_text_is_field_or_empty data s :
  data ≠ JNull →
  data ≠ JUndefined →
  (∀ field, transcription_field data = Some field → string_conversion_throws field = false) →
  awaited (JsonResolved data) s = true →
  ∃ s',
    dispatch (JsonResolved data) s = Some s' ∧
    uncaught s' = uncaught s ∧
    transcription s' =
      match transcription_field data with
      | Some field => if to_boolean field then field else JString ""
      | None => JString ""
      end ∧
    (∀ text, transcription_field data = Some (JString text) → transcription s' = JString text) ∧
    (data = JObject [("transcription", JString "hola")] → transcription s' = JString "hola").
Proof.
  intros Hnull Hundef Hconv Hp. simpl in Hp. apply bool_decide_eq_true in Hp.
  destruct (pending_json s) as [|n] eqn:E; [lia|].
  assert (shown_text data =
            match transcription_field data with
            | Some field => if to_boolean field then field else JString ""
            | None => JString ""
            end) as Hshown.
  { destruct data; try done; simpl; unfold js_or;
      by destruct (own_property _ _). }
  assert (coercion_error (shown_text data) = None) as Hok.
  { rewrite Hshown. unfold coercion_error.
    destruct (transcription_field data) as [field|]; [|done].
    destruct (to_boolean field); [|done]. by rewrite (Hconv field). }
  exists (with_transcription (shown_text data) (with_pending_json n s)).
  split_and!.
  - simpl. rewrite E. unfold run_update, run_task. rewrite onstop_after_json_eq. simpl.
    unfold commit. simpl. by rewrite Hok.
  - done.
  - exact Hshown.
  - intros text Ht. simpl. rewrite Hshown, Ht. simpl.
    destruct text; simpl; done.
  - intros ->. reflexivity.
Qed.

Lemma response_text_is_field_or_empty_witness :
  ∃ s',
    dispatch (JsonResolved hola_response) awaiting_json = Some s' ∧
    uncaught s' = uncaught awaiting_json ∧
    transcription s' =
      match transcription_field hola_response with
      | Some field => if to_boolean field then field else JString ""
      | None => JString ""
      end ∧
    (∀ text, transcription_field hola_response = Some (JString text) →
             transcription s' = JString text) ∧
    (hola_response = JObject [("transcription", JString "hola")] →
     transcription s' = JString "hola").
Proof.
  apply (response_text_is_field_or_empty hola_response awaiting_json).
  - discriminate.
  - discriminate.
  - intros field [= <-]. reflexivity.
  - vm_compute; reflexivity.
Defined.

(** A field that is truthy but does not convert to a string: the handler
    stores it, and the rendering that follows throws outside the [try]. *)
Example unshowable_response_is_uncaught :
  transcription_field unshowable_response
    = Some (JObject [("toString", JNumber (S754_finite false 1 0));
                     ("valueOf", JNumber (S754_finite false 1 0))]) ∧
  (uncaught <$> dispatch (JsonResolved unshowable_response) awaiting_json)
    = Some [mkError "TypeError" "Cannot convert object to primitive value"].
Proof. by vm_compute. Qed.

(** C2 as written fails on two responses: a field that is present but
    falsy is replaced by the empty string, and the response [null], which has
    no field, ends in the error sentence. *)
Lemma response_text_counterexample :
  (transcription_field zero_response = Some (JNumber (S754_zero false)) ∧
   (transcription <$> dispatch (JsonResolved zero_response) awaiting_json) = Some (JString "") ∧
   JString "" ≠ JNumber (S754_zero false)) ∧
  (transcription_field JNull = None ∧
   (transcription <$> dispatch (JsonResolved JNull) awaiting_json)
     = Some (JString "Error al transcribir: Cannot read properties of null (reading 'transcription')") ∧
   JString "Error al transcribir: Cannot read properties of null (reading 'transcription')"
     ≠ JString "").
Proof. split; (split_and!; [by vm_compute | by vm_compute | discriminate]). Qed.

(** * Further properties of the component *)

(** *** Exceptions nobody catches *)

Lemma step_uncaught ev s s' :
  shows ev = true → step s ev s' → uncaught s' = uncaught s ++ rejections [ev].
Proof.
  intros Hsh H. destruct H; simpl; rewrite ?app_nil_r; try done.
  - unfold stopped. by destruct (mr_state m).
  - simpl in Hsh. apply negb_true_iff in Hsh.
    unfold commit, coercion_error. simpl. by rewrite Hsh.
Qed.

Lemma rejections_cons ev tr : rejections (ev :: tr) = rejections [ev] ++ rejections tr.
Proof. by destruct ev. Qed.

Lemma run_trace_uncaught tr : ∀ s s',
  wf s →
  forallb shows tr = true →
  run_trace tr s = Some s' →
  uncaught s' = uncaught s ++ rejections tr.
Proof.
  induction tr as [|ev tr IH]; intros s s' Hwf Hsh H.
  - injection H as <-. simpl. by rewrite app_nil_r.
  - rewrite rejections_cons. simpl in H, Hsh.
    apply andb_prop in Hsh as [Hev Hsh].
    destruct (dispatch ev s) as [s1|] eqn:E; [|done].
    pose proof (dispatch_step _ _ _ Hwf E) as Hstep.
    rewrite (IH s1 s' (step_wf _ _ _ Hwf Hstep) Hsh H), (step_uncaught _ _ _ Hev Hstep).
    by rewrite app_assoc.
Qed.

(** X1. Along any run in which every response gives a text that can be
    converted to a string, the only exceptions that reach the event loop
    are the rejections of [getUserMedia] (line 13 is outside any [try]), in
    the order they happened: the stop button never runs into the null ref,
    and every upload failure is caught.  A response whose text cannot be
    converted then adds one more, the TypeError of the rendering. *)
Theorem uncaught_are_rejections tr s s' :
  wf s →
  forallb shows tr = true →
  run_trace tr s = Some s' →
  uncaught s' = uncaught s ++ rejections tr ∧
  ∀ data s2,
    shows (JsonResolved data) = false →
    dispatch (JsonResolved data) s' = Some s2 →
    uncaught s2
      = uncaught s ++ rejections tr
        ++ [mkError "TypeError" "Cannot convert object to primitive value"].
Proof.
  intros Hwf Hsh H.
  pose proof (run_trace_uncaught tr s s' Hwf Hsh H) as Hu. split; [done|].
  intros data s2 Hbad Hd. simpl in Hbad. apply negb_false_iff in Hbad.
  simpl in Hd. destruct (pending_json s') as [|n]; [done|].
  unfold run_update, run_task in Hd. rewrite onstop_after_json_eq in Hd.
  injection Hd as <-. unfold commit, coercion_error. simpl.
  by rewrite Hbad, Hu, app_assoc.
Qed.

Lemma uncaught_are_rejections_witness :
  uncaught denied_awaiting_json
    = uncaught initial_state ++ rejections (denied_then_recorded) ∧
  ∀ data s2,
    shows (JsonResolved data) = false →
    dispatch (JsonResolved data) denied_awaiting_json = Some s2 →
    uncaught s2
      = uncaught initial_state ++ rejections (denied_then_recorded)
        ++ [mkError "TypeError" "Cannot convert object to primitive value"].
Proof.
  apply (uncaught_are_rejections denied_then_recorded initial_state denied_awaiting_json).
  - apply wf_initial.
  - reflexivity.
  - vm_compute; reflexivity.
Defined.

(** X2. A start whose microphone request is rejected leaves the component
    exactly as it was, the unhandled rejection apart: same view, no
    recorder, the start button still there. *)
Theorem denied_microphone_changes_nothing s err :
  recording s = false →
  run_trace [ClickStart; UserMediaRejected err] s
    = Some (with_uncaught (uncaught s ++ [err]) s).
Proof.
  intros H. destruct s. simpl in H. subst. reflexivity.
Qed.

Lemma denied_microphone_changes_nothing_witness :
  run_trace [ClickStart; UserMediaRejected net_error] awaiting_fetch
    = Some (with_uncaught (uncaught awaiting_fetch ++ [net_error]) awaiting_fetch).
Proof.
  apply (denied_microphone_changes_nothing awaiting_fetch net_error).
  vm_compute; reflexivity.
Defined.

(** *** The button and the recorder *)

Lemma step_synced ev s s' :
  is_recorder_ended ev = false → step s ev s' → synced s → synced s'.
Proof.
  intros Hev H Hs. unfold synced in *. destruct H; try discriminate; simpl; try done.
  - (* stopRecording *)
    rewrite H0 in Hs. destruct Hs as (m0 & Hm0 & Hst). rewrite H in Hst.
    replace m0 with m in * by congruence.
    unfold stopped. rewrite Hst. simpl. rewrite H0, lookup_insert_eq. eauto.
  - (* a new recording *)
    rewrite lookup_insert_eq. eauto.
  - (* the stop event *)
    destruct (mediaRecorderRef s) as [r0|]; [|done].
    destruct Hs as (m0 & Hm0 & Hst).
    destruct (decide (r = r0)) as [->|Hne].
    + rewrite lookup_insert_eq. replace m0 with m in * by congruence. eauto.
    + rewrite lookup_insert_ne by done. eauto.
  - (* a response *)
    by commit_cases.
Qed.

Lemma step_loosely_synced ev s s' : step s ev s' → loosely_synced s → loosely_synced s'.
Proof.
  intros H Hs. unfold loosely_synced in *. destruct H; simpl; try done.
  - (* stopRecording *)
    rewrite H0 in Hs. destruct Hs as (m0 & Hm0 & Hst).
    replace m0 with m in * by congruence.
    unfold stopped. destruct (mr_state m) eqn:Est; simpl; rewrite H0.
    + eauto.
    + rewrite lookup_insert_eq. eauto.
    + rewrite lookup_insert_eq. eauto.
  - (* a new recording *)
    rewrite lookup_insert_eq. eauto.
  - (* the stop event *)
    destruct (mediaRecorderRef s) as [r0|]; [|done].
    destruct Hs as (m0 & Hm0 & Hst).
    destruct (decide (r = r0)) as [->|Hne].
    + rewrite lookup_insert_eq. replace m0 with m in * by congruence. eauto.
    + rewrite lookup_insert_ne by done. eauto.
  - (* a response *)
    by commit_cases.
  - (* the recorder stops by itself *)
    destruct (mediaRecorderRef s) as [r0|]; [|done].
    destruct Hs as (m0 & Hm0 & Hst).
    destruct (decide (r = r0)) as [->|Hne].
    + rewrite lookup_insert_eq. eauto.
    + rewrite lookup_insert_ne by done. eauto.
Qed.

Lemma reachable_synced tr s :
  no_self_stop tr = true → run_trace tr initial_state = Some s → synced s.
Proof.
  intros Hno H.
  refine (run_trace_rel (fun s1 s2 => synced s1 → synced s2)
            (fun ev => negb (is_recorder_ended ev))
            _ _ _ tr initial_state s wf_initial Hno H _); [auto|auto| |done].
  intros ev s0 s0' _ Hev. apply step_synced. by destruct (is_recorder_ended ev).
Qed.

Lemma reachable_loosely_synced tr s : run_trace tr initial_state = Some s → loosely_synced s.
Proof.
  intros H.
  assert (forallb (fun _ : Event => true) tr = true) as Hall by (clear; by induction tr).
  refine (run_trace_rel (fun s1 s2 => loosely_synced s1 → loosely_synced s2) (fun _ => true)
            _ _ _ tr initial_state s wf_initial Hall H _); [auto|auto| |done].
  intros ev s0 s0' _ _. apply step_loosely_synced.
Qed.

(** X3. In every state the component reaches from its first render, the
    button and the recorder agree as far as the component can know: while
    the start button is shown the ref is null or points at an inactive
    recorder; while the stop button is shown the ref points at a recorder
    that records or that has become inactive by itself.  In a run in which
    no recorder has stopped by itself, the stop button means exactly that
    the recorder the ref points at is recording. *)
Theorem button_agrees_with_recorder tr s :
  run_trace tr initial_state = Some s →
  (view_button (render s) = StartButton →
   mediaRecorderRef s = None ∨
   ∃ r m, mediaRecorderRef s = Some r ∧ recorders s !! r = Some m ∧ mr_state m = Inactive) ∧
  (view_button (render s) = StopButton →
   ∃ r m, mediaRecorderRef s = Some r ∧ recorders s !! r = Some m ∧
          (mr_state m = Recording ∨ mr_state m = Inactive)) ∧
  (no_self_stop tr = true →
   synced s ∧
   (view_button (render s) = StopButton →
    ∃ r m, mediaRecorderRef s = Some r ∧ recorders s !! r = Some m ∧ mr_state m = Recording)).
Proof.
  intros H. pose proof (reachable_loosely_synced tr s H) as Hl.
  unfold render. simpl. unfold loosely_synced in Hl. split_and!.
  - intros Hb. destruct (recording s) eqn:Hrec; [done|].
    destruct (mediaRecorderRef s) as [r|]; [|by left]. right.
    destruct Hl as (m & Hm & [Hst|[_ ?]]); [|done]. eauto.
  - intros Hb. destruct (recording s) eqn:Hrec; [|done].
    destruct (mediaRecorderRef s) as [r|]; [|done].
    destruct Hl as (m & Hm & [Hst|[Hst _]]); eauto 6.
  - intros Hno. pose proof (reachable_synced tr s Hno H) as Hs.
    split; [done|]. intros Hb. unfold synced in Hs.
    destruct (recording s); [|done].
    destruct (mediaRecorderRef s) as [r|]; [|done].
    destruct Hs as (m & Hm & Hst). eauto.
Qed.

Lemma button_agrees_with_recorder_witness :
  (view_button (render while_recording) = StartButton →
   mediaRecorderRef while_recording = None ∨
   ∃ r m, mediaRecorderRef while_recording = Some r ∧ recorders while_recording !! r = Some m ∧
          mr_state m = Inactive) ∧
  (view_button (render while_recording) = StopButton →
   ∃ r m, mediaRecorderRef while_recording = Some r ∧ recorders while_recording !! r = Some m ∧
          (mr_state m = Recording ∨ mr_state m = Inactive)) ∧
  (no_self_stop [ClickStart; UserMediaResolved mic] = true →
   synced while_recording ∧
   (view_button (render while_recording) = StopButton →
    ∃ r m, mediaRecorderRef while_recording = Some r ∧ recorders while_recording !! r = Some m ∧
           mr_state m = Recording)).
Proof.
  apply (button_agrees_with_recorder [ClickStart; UserMediaResolved mic]).
  vm_compute; reflexivity.
Defined.

(** In the sample run the recorder stops by itself: its stop handler has
    uploaded, and the stop button is still shown over an inactive recorder. *)
Example stop_button_over_inactive_recorder :
  view_button (render self_stopped) = StopButton ∧
  (mr_state <$> recorders self_stopped !! 0) = Some Inactive ∧
  length (requests self_stopped) = 1.
Proof. by vm_compute. Qed.

(** X4. Whenever the stop button is shown, clicking it raises nothing: it
    stops the recorder the ref points at, which was recording, brings the
    start button back, and leaves that recorder with its last fragment and its
    stop event still to come. *)
Theorem stop_button_stops_recording s :
  wf s →
  synced s →
  view_button (render s) = StopButton →
  ∃ r m s',
    mediaRecorderRef s = Some r ∧
    recorders s !! r = Some m ∧
    mr_state m = Recording ∧
    dispatch ClickStop s = Some s' ∧
    uncaught s' = uncaught s ∧
    view_button (render s') = StartButton ∧
    recorders s' !! r = Some (recorder_with_state Inactive true m) ∧
    (∀ data, is_Some (dispatch (DataAvailable r data) s')) ∧
    is_Some (dispatch (StopFired r) s').
Proof.
  intros Hwf Hs Hb. unfold render in Hb. simpl in Hb.
  destruct (recording s) eqn:Hrec; [|done].
  unfold synced in Hs. rewrite Hrec in Hs.
  destruct (mediaRecorderRef s) as [r|] eqn:Hr; [|done].
  destruct Hs as (m & Hm & Hst).
  pose proof (step_click_stop s r m Hrec Hr Hm) as Hstep.
  pose proof (step_wf _ _ _ Hwf Hstep) as Hwf'.
  assert (recorders (stopped r m s) !! r = Some (recorder_with_state Inactive true m)) as Hm'.
  { unfold stopped. rewrite Hst. simpl. apply lookup_insert_eq. }
  exists r, m, (stopped r m s). split_and!; try done.
  - by apply step_dispatch.
  - unfold stopped. by rewrite Hst.
  - intros data. eexists. apply step_dispatch; [done|].
    by apply (step_data _ r (recorder_with_state Inactive true m)).
  - eexists. apply step_dispatch; [done|].
    by apply (step_stop _ r (recorder_with_state Inactive true m)).
Qed.

Lemma stop_button_stops_recording_witness :
  ∃ r m s',
    mediaRecorderRef while_recording = Some r ∧
    recorders while_recording !! r = Some m ∧
    mr_state m = Recording ∧
    dispatch ClickStop while_recording = Some s' ∧
    uncaught s' = uncaught while_recording ∧
    view_button (render s') = StartButton ∧
    recorders s' !! r = Some (recorder_with_state Inactive true m) ∧
    (∀ data, is_Some (dispatch (DataAvailable r data) s')) ∧
    is_Some (dispatch (StopFired r) s').
Proof.
  apply (stop_button_stops_recording while_recording).
  - apply (reachable_wf [ClickStart; UserMediaResolved mic]). vm_compute; reflexivity.
  - apply (reachable_synced [ClickStart; UserMediaResolved mic]);
      [reflexivity | vm_compute; reflexivity].
  - vm_compute; reflexivity.
Defined.

(** *** Two clicks on start *)

Lemma step_orphaned r ev s s' :
  ends r ev = false → step s ev s' → orphaned r s → orphaned r s'.
Proof.
  intros Hev H (Hne & m0 & Hm0 & Hst). unfold orphaned. destruct H; simpl; try by eauto.
  - (* stopRecording acts on another recorder *)
    assert (r0 ≠ r) as Hrr by congruence.
    unfold stopped. destruct (mr_state m); simpl; split; eauto.
    all: rewrite lookup_insert_ne by done; eauto.
  - (* a new recording gets a new recorder *)
    assert (fresh (dom (recorders s)) ≠ r) as Hrr.
    { intros <-. assert (fresh (dom (recorders s)) ∈ dom (recorders s)) as Hin
        by (apply elem_of_dom; eauto).
      by apply is_fresh in Hin. }
    split; [congruence|]. rewrite lookup_insert_ne by done. eauto.
  - (* its own stop event cannot be due; another one changes nothing *)
    split; [done|]. destruct (decide (r0 = r)) as [->|Hrr].
    + rewrite lookup_insert_eq. replace m0 with m in * by congruence. eauto.
    + rewrite lookup_insert_ne by done. eauto.
  - (* a response *)
    commit_cases; eauto.
  - (* another recorder stops by itself *)
    simpl in Hev. apply bool_decide_eq_false in Hev.
    split; [done|]. rewrite lookup_insert_ne by done. eauto.
Qed.

(** X5. Clicking start twice before the microphone is granted (the start
    button stays until line 45 runs) starts two recorders; the ref keeps
    only the second, so the first is left recording with nothing pointing at
    it.  No exception is raised. *)
Theorem double_start_orphans_first_recorder s st1 st2 :
  wf s →
  recording s = false →
  ∃ s',
    run_trace [ClickStart; ClickStart; UserMediaResolved st1; UserMediaResolved st2] s
      = Some s' ∧
    uncaught s' = uncaught s ∧
    orphaned (fresh (dom (recorders s))) s' ∧
    ∃ r2 m2, mediaRecorderRef s' = Some r2 ∧ r2 ≠ fresh (dom (recorders s)) ∧
             recorders s' !! r2 = Some m2 ∧ mr_state m2 = Recording.
Proof.
  intros Hwf Hidle.
  pose proof (step_click_start s Hidle) as H0.
  pose proof (step_wf _ _ _ Hwf H0) as Hwf0.
  set (s0 := with_pending_media (S (pending_media s)) s) in *.
  pose proof (step_click_start s0 Hidle) as H1.
  pose proof (step_wf _ _ _ Hwf0 H1) as Hwf1.
  set (s1 := with_pending_media (S (pending_media s0)) s0) in *.
  pose proof (step_media_ok s1 st1 (S (pending_media s)) eq_refl) as H2.
  pose proof (step_wf _ _ _ Hwf1 H2) as Hwf2.
  set (s2 := resumed st1 (with_pending_media (S (pending_media s)) s1)) in *.
  pose proof (step_media_ok s2 st2 (pending_media s) eq_refl) as H3.
  set (s3 := resumed st2 (with_pending_media (pending_media s) s2)) in *.
  set (r1 := fresh (dom (recorders s))).
  assert (is_Some (recorders s2 !! r1)) as Hin.
  { unfold s2, resumed. simpl. rewrite lookup_insert_eq. eauto. }
  assert (fresh (dom (recorders s2)) ≠ r1) as Hne.
  { intros Heq. apply elem_of_dom in Hin. rewrite <- Heq in Hin. by apply is_fresh in Hin. }
  exists s3. split_and!.
  - cbn [run_trace].
    by rewrite (step_dispatch _ _ _ Hwf H0), (step_dispatch _ _ _ Hwf0 H1),
      (step_dispatch _ _ _ Hwf1 H2), (step_dispatch _ _ _ Hwf2 H3).
  - done.
  - split.
    + intros [= Heq]. by apply Hne.
    + eexists. split.
      * change (recorders s3) with
          (<[fresh (dom (recorders s2)) :=
               mkRecorder (fresh (dom (streams s2))) Recording false
                          (Some PushChunk) (Some FinalizeAndUpload)]> (recorders s2)).
        rewrite lookup_insert_ne by done. apply lookup_insert_eq.
      * reflexivity.
  - eexists (fresh (dom (recorders s2))), _. split; [done|]. split; [done|]. split.
    + apply lookup_insert_eq.
    + reflexivity.
Qed.

Lemma double_start_orphans_first_recorder_witness :
  ∃ s',
    run_trace [ClickStart; ClickStart; UserMediaResolved mic; UserMediaResolved mic]
              awaiting_fetch = Some s' ∧
    uncaught s' = uncaught awaiting_fetch ∧
    orphaned (fresh (dom (recorders awaiting_fetch))) s' ∧
    ∃ r2 m2, mediaRecorderRef s' = Some r2 ∧ r2 ≠ fresh (dom (recorders awaiting_fetch)) ∧
             recorders s' !! r2 = Some m2 ∧ mr_state m2 = Recording.
Proof.
  apply (double_start_orphans_first_recorder awaiting_fetch mic mic).
  - apply wf_awaiting_fetch.
  - vm_compute; reflexivity.
Defined.

(** X6. The component never stops a recorder that records while the ref
    points elsewhere: along any run in which that recorder does not stop by
    itself it is still recording and still not the current one, and each
    fragment it delivers is appended to whichever array is current. *)
Theorem orphaned_recorder_never_stops r tr s s' :
  wf s →
  orphaned r s →
  forallb (fun ev => negb (ends r ev)) tr = true →
  run_trace tr s = Some s' →
  orphaned r s' ∧
  ∀ data, ∃ s'', dispatch (DataAvailable r data) s' = Some s'' ∧
                 chunks s'' = chunks s' ++ [data].
Proof.
  intros Hwf Ho Hall H.
  pose proof (run_trace_wf _ _ _ Hwf H) as Hwf'.
  assert (orphaned r s') as Ho'.
  { refine (run_trace_rel (fun s1 s2 => orphaned r s1 → orphaned r s2)
              (fun ev => negb (ends r ev))
              _ _ _ tr s s' Hwf Hall H Ho); [auto|auto|].
    intros ev s0 s0' _ Hev. apply step_orphaned. by destruct (ends r ev). }
  split; [done|]. intros data.
  destruct Ho' as (_ & m & Hm & Hst).
  assert (emitting m = true) as Hem by (unfold emitting; by rewrite Hst).
  pose proof (step_data s' r m data Hm Hem) as Hstep.
  eexists. split; [by apply step_dispatch|].
  unfold chunks. simpl. by rewrite lookup_insert_eq.
Qed.

Lemma orphaned_recorder_never_stops_witness :
  orphaned 0 (default initial_state
                (run_trace [ClickStop; StopFired 1; ClickStart; UserMediaResolved mic;
                            RecorderEnded 2]
                           double_start)) ∧
  ∀ data, ∃ s'',
    dispatch (DataAvailable 0 data)
             (default initial_state
                (run_trace [ClickStop; StopFired 1; ClickStart; UserMediaResolved mic;
                            RecorderEnded 2]
                           double_start)) = Some s'' ∧
    chunks s'' =
      chunks (default initial_state
                (run_trace [ClickStop; StopFired 1; ClickStart; UserMediaResolved mic;
                            RecorderEnded 2]
                           double_start)) ++ [data].
Proof.
  apply (orphaned_recorder_never_stops 0
           [ClickStop; StopFired 1; ClickStart; UserMediaResolved mic; RecorderEnded 2]
           double_start).
  - apply (reachable_wf [ClickStart; ClickStart; UserMediaResolved mic; UserMediaResolved mic]).
    vm_compute; reflexivity.
  - split; [vm_compute; discriminate|].
    exists (mkRecorder 0 Recording false (Some PushChunk) (Some FinalizeAndUpload)).
    split; vm_compute; reflexivity.
  - reflexivity.
  - vm_compute; reflexivity.
Defined.

(** When it does stop by itself, its stop handler uploads whatever the
    current array holds. *)
Example orphan_stops_by_itself :
  (length <$> (requests <$> run_trace [RecorderEnded 0; StopFired 0] double_start)) = Some 1.
Proof. by vm_compute. Qed.

(** *** What is never given back *)

Lemma run_trace_count (g : State → nat) (P : Event → bool) :
  (∀ ev s s', step s ev s' → g s' = g s + (if P ev then 1 else 0)) →
  ∀ tr s s', wf s → run_trace tr s = Some s' → g s' = g s + count_events P tr.
Proof.
  intros Hone. induction tr as [|ev tr IH]; simpl; intros s s' Hwf H.
  - injection H as <-. lia.
  - destruct (dispatch ev s) as [s1|] eqn:E; [|done].
    pose proof (dispatch_step _ _ _ Hwf E) as Hstep.
    rewrite (IH s1 s' (step_wf _ _ _ Hwf Hstep) H), (Hone _ _ _ Hstep). lia.
Qed.




Lemma step_blob_urls_grow ev s s' :
  step s ev s' →
  (∀ u b, blob_urls s !! u = Some b → blob_urls s' !! u = Some b) ∧
  size (blob_urls s') = size (blob_urls s) + (if is_stop_event ev then 1 else 0).
Proof.
  intros H. destruct H; simpl; rewrite ?Nat.add_0_r; try done.
  - unfold stopped. by destruct (mr_state m).
  - split.
    + intros u b Hu. rewrite lookup_insert_ne; [done|].
      intros <-. assert (fresh (dom (blob_urls s)) ∈ dom (blob_urls s)) as Hin
        by (apply elem_of_dom; eauto).
      by apply is_fresh in Hin.
    + rewrite map_size_insert_None; [lia|]. apply not_elem_of_dom, is_fresh.
  - commit_cases; split; (done || lia).
Qed.

(** X8. Object URLs are created (line 24) and never revoked: along any run
    every URL keeps resolving to the blob it was created for, and each stop
    event adds exactly one new URL. *)
Theorem object_urls_are_never_revoked tr s s' :
  wf s →
  run_trace tr s = Some s' →
  (∀ u b, blob_urls s !! u = Some b → blob_urls s' !! u = Some b) ∧
  size (blob_urls s') = size (blob_urls s) + count_events is_stop_event tr.
Proof.
  intros Hwf H. split.
  - assert (forallb (fun _ : Event => true) tr = true) as Hall by (clear; by induction tr).
    refine (run_trace_rel
              (fun s1 s2 => ∀ u b, blob_urls s1 !! u = Some b → blob_urls s2 !! u = Some b)
              (fun _ => true) _ _ _ tr s s' Hwf Hall H); [auto|auto|].
    intros ev s0 s0' _ _ Hstep. apply (step_blob_urls_grow ev s0 s0' Hstep).
  - apply (run_trace_count (fun s => size (blob_urls s)) is_stop_event); [|done|done].
    intros ev s0 s0' Hstep. apply (step_blob_urls_grow ev s0 s0' Hstep).
Qed.

Lemma object_urls_are_never_revoked_witness :
  (∀ u b, blob_urls awaiting_fetch !! u = Some b →
          blob_urls (default initial_state
                       (run_trace (session_trace mic 1 [frag2]) awaiting_fetch)) !! u = Some b) ∧
  size (blob_urls (default initial_state
                     (run_trace (session_trace mic 1 [frag2]) awaiting_fetch)))
    = size (blob_urls awaiting_fetch)
      + count_events is_stop_event (session_trace mic 1 [frag2]).
Proof.
  apply (object_urls_are_never_revoked (session_trace mic 1 [frag2]) awaiting_fetch).
  - apply wf_awaiting_fetch.
  - vm_compute; reflexivity.
Defined.

(** *** Everything that goes out *)

Lemma step_requests ev s s' :
  step s ev s' →
  if is_stop_event ev
  then ∃ b, requests s' = requests s ++ [upload_request b] ∧ blob_type b = "audio/wav"
  else requests s' = requests s.
Proof.
  intros H. destruct H; simpl; try done.
  - unfold stopped. by destruct (mr_state m).
  - eexists. split; reflexivity.
  - by commit_cases.
Qed.


(** X9. The only traffic of the component is the upload: along any run the
    requests sent are, in order, one upload request per stop event, each a
    POST of one [audio/wav]-labelled blob to the fixed endpoint.  In
    particular the send button never sends anything. *)
Theorem requests_are_uploads tr : ∀ s s',
  wf s →
  run_trace tr s = Some s' →
  ∃ blobs,
    requests s' = requests s ++ (upload_request <$> blobs) ∧
    length blobs = count_events is_stop_event tr ∧
    Forall (fun b => blob_type b = "audio/wav") blobs.
Proof.
  induction tr as [|ev tr IH]; simpl; intros s s' Hwf H.
  - injection H as <-. exists []. simpl. by rewrite app_nil_r.
  - destruct (dispatch ev s) as [s1|] eqn:E; [|done].
    pose proof (dispatch_step _ _ _ Hwf E) as Hstep.
    destruct (IH s1 s' (step_wf _ _ _ Hwf Hstep) H) as (blobs & Hreq & Hlen & Hty).
    pose proof (step_requests ev s s1 Hstep) as Hone.
    destruct (is_stop_event ev).
    + destruct Hone as (b & Hb & Hbt).
      exists (b :: blobs). simpl. rewrite Hreq, Hb, <- app_assoc. simpl.
      split_and!; [done|lia|by constructor].
    + exists blobs. by rewrite Hreq, Hone.
Qed.

Lemma requests_are_uploads_witness :
  ∃ blobs,
    requests (default initial_state
                (run_trace (ClickSend :: session_trace mic 1 [frag2] ++ [ClickSend])
                           awaiting_fetch))
      = requests awaiting_fetch ++ (upload_request <$> blobs) ∧
    length blobs
      = count_events is_stop_event (ClickSend :: session_trace mic 1 [frag2] ++ [ClickSend]) ∧
    Forall (fun b => blob_type b = "audio/wav") blobs.
Proof.
  apply (requests_are_uploads (ClickSend :: session_trace mic 1 [frag2] ++ [ClickSend])
           awaiting_fetch).
  - apply wf_awaiting_fetch.
  - vm_compute; reflexivity.
Defined.

(** *** The text on display *)

Lemma error_text_truthy err : to_boolean (error_text err) = true.
Proof. reflexivity. Qed.

Lemma shown_text_displayable data : displayable (shown_text data).
Proof.
  destruct data; simpl; try (left; apply error_text_truthy).
  all: unfold js_or;
    match goal with |- displayable (if to_boolean ?v then _ else _) =>
      destruct (to_boolean v) eqn:E end; [by left | by right].
Qed.

Lemma step_displayable ev s s' :
  step s ev s' → displayable (transcription s) → displayable (transcription s').
Proof.
  intros H Hd. destruct H; simpl; try done.
  - unfold stopped. by destruct (mr_state m).
  - destruct value; [by right | by left].
  - left. apply error_text_truthy.
  - commit_cases; apply shown_text_displayable.
  - left. apply error_text_truthy.
Qed.

(** X10. The textarea's value is never [null], [undefined] or any other
    falsy value but the empty string: it starts as [""], the user types
    strings, the catch block writes a non-empty sentence, and line 37 falls
    back to [""] for everything falsy. *)
Theorem text_is_never_null tr s :
  run_trace tr initial_state = Some s →
  displayable (transcription s) ∧
  transcription s ≠ JNull ∧
  transcription s ≠ JUndefined ∧
  view_textarea (render s) = transcription s.
Proof.
  intros H.
  assert (displayable (transcription s)) as Hd.
  { assert (forallb (fun _ : Event => true) tr = true) as Hall by (clear; by induction tr).
    refine (run_trace_rel
              (fun s1 s2 => displayable (transcription s1) → displayable (transcription s2))
              (fun _ => true) _ _ _ tr initial_state s wf_initial Hall H _); [auto|auto| |by right].
    intros ev s0 s0' _ _. apply step_displayable. }
  split_and!; try done.
  - intros Heq. rewrite Heq in Hd. by destruct Hd.
  - intros Heq. rewrite Heq in Hd. by destruct Hd.
Qed.

Lemma text_is_never_null_witness :
  displayable (transcription (default initial_state
                                (dispatch (JsonResolved zero_response) awaiting_json))) ∧
  transcription (default initial_state
                   (dispatch (JsonResolved zero_response) awaiting_json)) ≠ JNull ∧
  transcription (default initial_state
                   (dispatch (JsonResolved zero_response) awaiting_json)) ≠ JUndefined ∧
  view_textarea (render (default initial_state
                           (dispatch (JsonResolved zero_response) awaiting_json)))
    = transcription (default initial_state
                       (dispatch (JsonResolved zero_response) awaiting_json)).
Proof.
  apply (text_is_never_null
           ([ClickStart; UserMediaResolved mic] ++ capture_trace
              ++ [StopFired 0; FetchResolved (mkResponse 200); JsonResolved zero_response])).
  vm_compute; reflexivity.
Defined.

Lemma step_transcription ev s s' :
  touches_text ev = false → step s ev s' → transcription s' = transcription s.
Proof.
  intros Hev H. destruct H; try discriminate; try done.
  unfold stopped. by destruct (mr_state m).
Qed.

(** X11. Recording does not touch what is on display: as long as no stop
    event runs and no response, failure or keystroke arrives, the textarea
    keeps its text and the audio element keeps its source.  A new recording
    therefore leaves the previous recording's audio and text in place until
    its own stop event and response. *)
Theorem recording_keeps_display tr s s' :
  wf s →
  forallb (fun ev => negb (touches_text ev) && negb (is_stop_event ev)) tr = true →
  run_trace tr s = Some s' →
  view_textarea (render s') = view_textarea (render s) ∧
  view_audio_src (render s') = view_audio_src (render s).
Proof.
  intros Hwf Hall H. unfold render. simpl.
  refine (run_trace_rel
            (fun s1 s2 => transcription s2 = transcription s1 ∧ audioUrl s2 = audioUrl s1)
            (fun ev => negb (touches_text ev) && negb (is_stop_event ev))
            _ _ _ tr s s' Hwf Hall H); [done| |].
  - intros s1 s2 s3 [? ?] [? ?]. split; congruence.
  - intros ev s0 s0' _ Hev Hstep. apply andb_prop in Hev as [Ht Hs].
    apply negb_true_iff in Ht, Hs. split.
    + by apply (step_transcription ev).
    + by apply (step_audioUrl ev).
Qed.

Lemma recording_keeps_display_witness :
  view_textarea (render (default initial_state
                           (run_trace [ClickStart; UserMediaResolved mic; DataAvailable 1 frag2;
                                       ClickStop; DataAvailable 1 frag1] after_failure)))
    = view_textarea (render after_failure) ∧
  view_audio_src (render (default initial_state
                            (run_trace [ClickStart; UserMediaResolved mic; DataAvailable 1 frag2;
                                        ClickStop; DataAvailable 1 frag1] after_failure)))
    = view_audio_src (render after_failure).
Proof.
  apply (recording_keeps_display
           [ClickStart; UserMediaResolved mic; DataAvailable 1 frag2;
            ClickStop; DataAvailable 1 frag1] after_failure).
  - apply (run_trace_wf failure_trace awaiting_fetch); [apply wf_awaiting_fetch|].
    vm_compute; reflexivity.
  - reflexivity.
  - vm_compute; reflexivity.
Defined.

Lemma dispatch_erase_status ev s : dispatch (erase_status ev) s = dispatch ev s.
Proof. by destruct ev. Qed.

(** X12. The response's HTTP status is never looked at (there is no
    [res.ok] test between lines 31 and 37): two runs that differ only in
    the statuses of the responses end in the same state. *)
Theorem status_is_ignored tr1 : ∀ tr2 s,
  erase_status <$> tr1 = erase_status <$> tr2 →
  run_trace tr1 s = run_trace tr2 s.
Proof.
  induction tr1 as [|ev1 tr1 IH]; intros [|ev2 tr2] s Heq; try done.
  injection Heq as Hev Hrest. cbn [run_trace].
  rewrite <- (dispatch_erase_status ev1), Hev, dispatch_erase_status.
  destruct (dispatch ev2 s); [by apply IH | done].
Qed.

Lemma status_is_ignored_witness :
  run_trace [FetchResolved (mkResponse 500); JsonResolved hola_response] awaiting_fetch
  = run_trace [FetchResolved (mkResponse 200); JsonResolved hola_response] awaiting_fetch.
Proof.
  apply (status_is_ignored [FetchResolved (mkResponse 500); JsonResolved hola_response]).
  reflexivity.
Defined.

(** A response with status 500 and a transcription in its body is shown
    like any other. *)
Example error_status_is_shown_as_text :
  (transcription <$>
     run_trace [FetchResolved (mkResponse 500); JsonResolved hola_response] awaiting_fetch)
  = Some (JString "hola").
Proof. by vm_compute. Qed.

(** X13. A response overwrites what the user has typed just as a failure
    does: the state after the response is the same whatever the textarea
    held before, and for a response other than [null] the text is the
    field or the empty string. *)
Theorem response_overwrites_text data s value old :
  awaited (JsonResolved data) s = true →
  ∃ s',
    run_trace [EditText value; JsonResolved data] s = Some s' ∧
    dispatch (JsonResolved data) (with_transcription old s) = Some s' ∧
    dispatch (JsonResolved data) s = Some s' ∧
    (data ≠ JNull → data ≠ JUndefined →
     transcription s' = js_or (default JUndefined (transcription_field data)) (JString "")).
Proof.
  intros Hp. simpl in Hp. apply bool_decide_eq_true in Hp.
  destruct (pending_json s) as [|n] eqn:E; [lia|].
  exists (commit (with_transcription (shown_text data) (with_pending_json n s))).
  assert (∀ t, dispatch (JsonResolved data) (with_transcription t s)
               = Some (commit (with_transcription (shown_text data) (with_pending_json n s))))
    as Hany.
  { intros t. simpl. rewrite E. unfold run_update, run_task.
    by rewrite onstop_after_json_eq. }
  split_and!.
  - cbn [run_trace].
    change (dispatch (EditText value) s) with (Some (with_transcription (JString value) s)).
    cbv iota. by rewrite Hany.
  - apply Hany.
  - simpl. rewrite E. unfold run_update, run_task. by rewrite onstop_after_json_eq.
  - intros Hn Hu. commit_cases; by destruct data.
Qed.

Lemma response_overwrites_text_witness :
  ∃ s',
    run_trace [EditText "borrador"; JsonResolved hola_response] awaiting_json = Some s' ∧
    dispatch (JsonResolved hola_response) (with_transcription (JString "x") awaiting_json)
      = Some s' ∧
    dispatch (JsonResolved hola_response) awaiting_json = Some s' ∧
    (hola_response ≠ JNull → hola_response ≠ JUndefined →
     transcription s'
       = js_or (default JUndefined (transcription_field hola_response)) (JString "")).
Proof.
  apply (response_overwrites_text hola_response awaiting_json).
  vm_compute; reflexivity.
Defined.

(** *** Fragments outlive the stop event *)

(** X14. The stop handler reads the accumulated fragments but does not
    clear them (only line 16, at the next start, does).  So when a second
    stop event runs before another recording has started, its upload begins
    with everything the first upload contained, followed by the fragments
    delivered in between. *)
Theorem stop_does_not_clear_fragments s r1 s1 tr s2 r2 s3 :
  wf s →
  dispatch (StopFired r1) s = Some s1 →
  no_resume tr = true →
  run_trace tr s1 = Some s2 →
  dispatch (StopFired r2) s2 = Some s3 →
  chunks s1 = chunks s ∧
  ∃ blob1 blob2,
    last (requests s1) = Some (upload_request blob1) ∧
    last (requests s3) = Some (upload_request blob2) ∧
    blob_bytes blob2 = blob_bytes blob1 ++ concat (blob_bytes <$> emitted tr).
Proof.
  intros Hwf H1 Hno Hrun H3.
  pose proof (dispatch_step _ _ _ Hwf H1) as Hstep1.
  pose proof (step_wf _ _ _ Hwf Hstep1) as Hwf1.
  pose proof (run_trace_wf _ _ _ Hwf1 Hrun) as Hwf2.
  pose proof (step_chunks _ _ _ Hwf Hstep1) as Hc1. simpl in Hc1. rewrite app_nil_r in Hc1.
  pose proof (run_trace_chunks _ _ _ Hwf1 Hno Hrun) as Hc2.
  destruct (stop_event_blob _ _ _ Hwf H1) as (_ & _ & _ & Hreq1 & _).
  destruct (stop_event_blob _ _ _ Hwf2 H3) as (_ & _ & _ & Hreq3 & _).
  split; [done|].
  exists (finalized_blob s), (finalized_blob s2). split_and!.
  - rewrite Hreq1. apply last_snoc.
  - rewrite Hreq3. apply last_snoc.
  - unfold finalized_blob. simpl. by rewrite Hc2, Hc1, fmap_app, concat_app.
Qed.

Lemma stop_does_not_clear_fragments_witness :
  chunks first_stop_done = chunks two_stops_due ∧
  ∃ blob1 blob2,
    last (requests first_stop_done) = Some (upload_request blob1) ∧
    last (requests second_stop_done) = Some (upload_request blob2) ∧
    blob_bytes blob2
      = blob_bytes blob1 ++ concat (blob_bytes <$> emitted [DataAvailable 1 frag2]).
Proof.
  apply (stop_does_not_clear_fragments two_stops_due 0 first_stop_done
           [DataAvailable 1 frag2]
           (default initial_state (dispatch (DataAvailable 1 frag2) first_stop_done))
           1 second_stop_done).
  - apply (reachable_wf [ClickStart; ClickStart; UserMediaResolved mic; ClickStop;
                         UserMediaResolved mic; DataAvailable 1 frag1; ClickStop]).
    vm_compute; reflexivity.
  - vm_compute; reflexivity.
  - reflexivity.
  - vm_compute; reflexivity.
  - vm_compute; reflexivity.
Defined.

(** In the sample run with two clicks on start, the first recorder's upload
    carries the second recording's fragment, and the second upload repeats
    it. *)
Example two_stops_upload_twice :
  (req_body <$> requests second_stop_done)
  = [FormDataBody [mkEntry "audio_file" (mkBlob [Byte.x01; Byte.x02] "audio/wav") "audio.wav"];
     FormDataBody [mkEntry "audio_file" (mkBlob [Byte.x01; Byte.x02; Byte.x03] "audio/wav")
                           "audio.wav"]].
Proof. by vm_compute. Qed.

(** *** A whole session *)

(** X15. From the idle view a session always goes through: start, any
    fragments, stop and the stop event run without an exception, the start
    button is back, the audio element plays a new URL, and exactly one
    request has been added, carrying the blob whose bytes are the fragments
    in order.  The component has no state from which it cannot record
    again. *)
Theorem session_runs_and_uploads s st fragments :
  wf s →
  view_button (render s) = StartButton →
  ∃ s' u blob,
    run_trace (session_trace st (fresh (dom (recorders s))) fragments) s = Some s' ∧
    uncaught s' = uncaught s ∧
    view_button (render s') = StartButton ∧
    view_audio_src (render s') = Some u ∧
    blob_urls s !! u = None ∧
    blob_urls s' !! u = Some blob ∧
    requests s' = requests s ++ [upload_request blob] ∧
    blob_type blob = "audio/wav" ∧
    blob_bytes blob = concat (blob_bytes <$> fragments).
Proof.
  intros Hwf Hb. unfold render in Hb. simpl in Hb.
  destruct (recording s) eqn:Hidle; [done|].
  set (r := fresh (dom (recorders s))).
  pose proof (step_click_start s Hidle) as H0.
  pose proof (step_wf _ _ _ Hwf H0) as Hwf0.
  set (s0 := with_pending_media (S (pending_media s)) s) in *.
  pose proof (step_media_ok s0 st (pending_media s) eq_refl) as H1.
  pose proof (step_wf _ _ _ Hwf0 H1) as Hwf1.
  set (s1 := resumed st (with_pending_media (pending_media s) s0)) in *.
  set (m1 := mkRecorder (fresh (dom (streams s))) Recording false
                        (Some PushChunk) (Some FinalizeAndUpload)).
  assert (recorders s1 !! r = Some m1) as Hm1 by apply lookup_insert_eq.
  assert (chunks s1 = []) as Hc1.
  { unfold chunks, s1, resumed. simpl. by rewrite lookup_insert_eq. }
  destruct (data_phase_runs r m1 fragments s1 Hwf1 Hm1 eq_refl)
    as (s2 & Hrun2 & Hwf2 & Hc2 & Hrec2 & Href2 & Hrs2 & Hu2 & Hb2 & Hq2).
  rewrite Hc1 in Hc2. simpl in Hc2.
  assert (recorders s2 !! r = Some m1) as Hm2 by (by rewrite Hrs2).
  pose proof (step_click_stop s2 r m1 Hrec2 Href2 Hm2) as H3.
  pose proof (step_wf _ _ _ Hwf2 H3) as Hwf3.
  set (s3 := stopped r m1 s2) in *.
  set (m3 := recorder_with_state Inactive true m1).
  assert (recorders s3 !! r = Some m3) as Hm3 by apply lookup_insert_eq.
  pose proof (step_stop s3 r m3 Hm3 eq_refl) as H4.
  set (s4 := with_recorders (<[r := recorder_with_state (mr_state m3) false m3]> (recorders s3))
                            s3) in *.
  assert (chunks s4 = fragments) as Hc4 by exact Hc2.
  exists (finalized s4), (fresh (dom (blob_urls s2))), (finalized_blob s4).
  split_and!.
  - unfold session_trace. rewrite run_trace_app. cbn [run_trace].
    rewrite (step_dispatch _ _ _ Hwf H0), (step_dispatch _ _ _ Hwf0 H1).
    cbn [mbind option_bind]. rewrite run_trace_app, Hrun2.
    cbn [mbind option_bind run_trace].
    by rewrite (step_dispatch _ _ _ Hwf2 H3), (step_dispatch _ _ _ Hwf3 H4).
  - exact Hu2.
  - reflexivity.
  - reflexivity.
  - rewrite Hb2. apply not_elem_of_dom, is_fresh.
  - unfold finalized. simpl. apply lookup_insert_eq.
  - unfold finalized. simpl. by rewrite Hq2.
  - reflexivity.
  - unfold finalized_blob. by rewrite Hc4.
Qed.

Lemma session_runs_and_uploads_witness :
  ∃ s' u blob,
    run_trace (session_trace mic (fresh (dom (recorders after_failure))) [frag2; frag1; frag2])
              after_failure = Some s' ∧
    uncaught s' = uncaught after_failure ∧
    view_button (render s') = StartButton ∧
    view_audio_src (render s') = Some u ∧
    blob_urls after_failure !! u = None ∧
    blob_urls s' !! u = Some blob ∧
    requests s' = requests after_failure ++ [upload_request blob] ∧
    blob_type blob = "audio/wav" ∧
    blob_bytes blob = concat (blob_bytes <$> [frag2; frag1; frag2]).
Proof.
  apply (session_runs_and_uploads after_failure mic [frag2; frag1; frag2]).
  - apply (run_trace_wf failure_trace awaiting_fetch); [apply wf_awaiting_fetch|].
    vm_compute; reflexivity.
  - vm_compute; reflexivity.
Defined.

(** *** The send button and the audio element *)







End Facts.
